(** * A DPLL solver for CNF formulas: model and verification

    The development embeds the Python package [sat_solver] (literals.py,
    clauses.py, formula.py, solver.py).  Python's [frozenset]/[set] values
    are finite sets ([gset]) with extensional equality, dictionaries are
    finite maps ([gmap]), and every [for] loop over a set is a recursive
    function over the enumeration [elements] of that set.  The proofs use
    only that [elements] lists each member exactly once, never the
    particular order. *)

From Stdlib Require Import Ascii.
From stdpp Require Import gmap strings list fin_maps fin_sets.

Set Warnings "-clear-no-such-hyp".

(** ** Data model *)

(** literals.py: [Literal(name, negated)], a frozen dataclass. *)
Record Literal : Type := mkLiteral { name : string; negated : bool }.

Global Instance Literal_eq_dec : EqDecision Literal.
Proof. solve_decision. Defined.

Global Instance Literal_countable : Countable Literal :=
  inj_countable' (λ l, (name l, negated l)) (λ p, mkLiteral p.1 p.2)
                 (λ l, match l with mkLiteral _ _ => eq_refl end).

(** clauses.py: [Clause(literals: FrozenSet[Literal])]. *)
Record Clause : Type := mkClause { literals : gset Literal }.

Global Instance Clause_eq_dec : EqDecision Clause.
Proof. solve_decision. Defined.

Global Instance Clause_countable : Countable Clause :=
  inj_countable' literals mkClause
                 (λ c, match c with mkClause _ => eq_refl end).

(** formula.py: [Formula(clauses: FrozenSet[Clause])]. *)
Record Formula : Type := mkFormula { clauses : gset Clause }.

Global Instance Formula_eq_dec : EqDecision Formula.
Proof. solve_decision. Defined.

(** [Dict[str, bool]]: a partial assignment. *)
Abbreviation Assignment := (gmap string bool).

(** What a call can do besides returning: the [assert] of [simplify] can
    fail, [next(iter(...))] can raise on an empty set, and the model's loops
    carry a fuel bound. *)
Inductive outcome (T : Type) : Type :=
  | Ret (x : T)
  | AssertionError
  | StopIteration
  | OutOfFuel.
Arguments Ret {T} x.
Arguments AssertionError {T}.
Arguments StopIteration {T}.
Arguments OutOfFuel {T}.

(** ** literals.py *)

(** [Literal.eval]: [None] when the name is unbound, else the bound value,
    complemented for a negated literal. *)
Definition Literal_eval (self : Literal) (assignment : Assignment) : option bool :=
  match assignment !! name self with
  | None => None
  | Some val => Some (if negated self then negb val else val)
  end.

(** ** clauses.py *)

(** The dictionary [names_to_signs] built by the loops of [Clause.of] and
    [Formula.of]: [d.setdefault(lit.name, set()).add(lit.negated)]. *)
Definition add_sign (d : gmap string (gset bool)) (lit : Literal)
  : gmap string (gset bool) :=
  <[name lit := {[negated lit]} ∪ default ∅ (d !! name lit)]> d.

Definition names_to_signs (lits : list Literal) : gmap string (gset bool) :=
  foldl add_sign ∅ lits.

(** [Clause.of]: the loop over [names_to_signs.values()] only executes
    [pass]; the clause is built from the set of the given literals. *)
Definition Clause_of (lits : list Literal) : Clause :=
  let lits_set : gset Literal := list_to_set lits in
  let nts := names_to_signs (elements lits_set) in
  let _ := map_fold (λ _ signs (u : unit), if decide (size signs = 2) then tt else u) tt nts in
  mkClause lits_set.

Definition Clause_is_empty (self : Clause) : bool :=
  bool_decide (size (literals self) = 0).

Fixpoint is_unit_loop (lits : list Literal) (assignment : Assignment)
         (undecided : nat) : bool :=
  match lits with
  | [] => bool_decide (undecided = 1)
  | lit :: rest =>
      match Literal_eval lit assignment with
      | Some true => false
      | None =>
          let undecided := S undecided in
          if bool_decide (1 < undecided) then false
          else is_unit_loop rest assignment undecided
      | Some false => is_unit_loop rest assignment undecided
      end
  end.

Definition Clause_is_unit (self : Clause) (assignment : Assignment) : bool :=
  is_unit_loop (elements (literals self)) assignment 0.

Fixpoint evaluate_clause_loop (lits : list Literal) (assignment : Assignment)
         (undecided : bool) : option bool :=
  match lits with
  | [] => if undecided then None else Some false
  | lit :: rest =>
      match Literal_eval lit assignment with
      | Some true => Some true
      | None => evaluate_clause_loop rest assignment true
      | Some false => evaluate_clause_loop rest assignment undecided
      end
  end.

Definition Clause_evaluate (self : Clause) (assignment : Assignment) : option bool :=
  evaluate_clause_loop (elements (literals self)) assignment false.

(** [Clause.reduce]: [None] is Python's [None] (clause satisfied, to be
    dropped); otherwise the clause of the undecided literals. *)
Fixpoint reduce_clause_loop (lits : list Literal) (assignment : Assignment)
         (new_lits : gset Literal) : option Clause :=
  match lits with
  | [] => Some (mkClause new_lits)
  | lit :: rest =>
      match Literal_eval lit assignment with
      | Some true => None
      | None => reduce_clause_loop rest assignment ({[lit]} ∪ new_lits)
      | Some false => reduce_clause_loop rest assignment new_lits
      end
  end.

Definition Clause_reduce (self : Clause) (assignment : Assignment) : option Clause :=
  reduce_clause_loop (elements (literals self)) assignment ∅.

(** ** formula.py *)

(** The test [any(len(signs) == 2 for signs in names_to_signs.values())]. *)
Definition has_both_signs (d : gmap string (gset bool)) : bool :=
  existsb (λ kv, bool_decide (size kv.2 = 2)) (map_to_list d).

Definition Formula_of (cls : list Clause) : Formula :=
  mkFormula
    (foldl (λ (normalized : gset Clause) cl,
              if has_both_signs (names_to_signs (elements (literals cl)))
              then normalized
              else {[cl]} ∪ normalized)
           ∅ cls).

Definition Formula_variables (self : Formula) : gset string :=
  foldl (λ (acc : gset string) clause,
           foldl (λ (acc : gset string) lit, {[name lit]} ∪ acc)
                 acc (elements (literals clause)))
        ∅ (elements (clauses self)).

Fixpoint evaluate_formula_loop (cls : list Clause) (assignment : Assignment)
         (undecided : bool) : option bool :=
  match cls with
  | [] => if undecided then None else Some true
  | cl :: rest =>
      match Clause_evaluate cl assignment with
      | Some false => Some false
      | None => evaluate_formula_loop rest assignment true
      | Some true => evaluate_formula_loop rest assignment undecided
      end
  end.

Definition Formula_evaluate (self : Formula) (assignment : Assignment) : option bool :=
  evaluate_formula_loop (elements (clauses self)) assignment false.

Definition Formula_unit_clauses (self : Formula) (assignment : Assignment) : gset Clause :=
  list_to_set (filter (λ cl, Clause_is_unit cl assignment = true)
                      (elements (clauses self))).

(** First loop of [pure_literals]: the polarities under which each variable
    occurs undecided in a clause that is not already true. *)
Definition collect_signs (assignment : Assignment)
           (sign_by_var : gmap string (gset bool)) (cl : Clause)
  : gmap string (gset bool) :=
  match Clause_evaluate cl assignment with
  | Some true => sign_by_var
  | _ =>
      foldl (λ d lit,
               match Literal_eval lit assignment with
               | None => add_sign d lit
               | Some _ => d
               end)
            sign_by_var (elements (literals cl))
  end.

Definition sign_by_var (self : Formula) (assignment : Assignment)
  : gmap string (gset bool) :=
  foldl (collect_signs assignment) ∅ (elements (clauses self)).

(** Second loop of [pure_literals]: [next(iter(signs))] is the single
    member of a one-element set. *)
Definition add_pure (pures : gset Literal) (kv : string * gset bool) : gset Literal :=
  if decide (size kv.2 = 1) then
    match elements kv.2 with
    | only_negated :: _ => {[mkLiteral kv.1 only_negated]} ∪ pures
    | [] => pures
    end
  else pures.

Definition Formula_pure_literals (self : Formula) (assignment : Assignment) : gset Literal :=
  foldl add_pure ∅ (map_to_list (sign_by_var self assignment)).

(** [Formula.reduce]: the pair (reduced formula, contradiction flag). *)
Fixpoint reduce_formula_loop (cls : list Clause) (assignment : Assignment)
         (new_clauses : gset Clause) : Formula * bool :=
  match cls with
  | [] => (mkFormula new_clauses, false)
  | cl :: rest =>
      match Clause_reduce cl assignment with
      | None => reduce_formula_loop rest assignment new_clauses
      | Some red =>
          if Clause_is_empty red then (mkFormula ∅, true)
          else reduce_formula_loop rest assignment ({[red]} ∪ new_clauses)
      end
  end.

Definition Formula_reduce (self : Formula) (assignment : Assignment) : Formula * bool :=
  reduce_formula_loop (elements (clauses self)) assignment ∅.

(** ** solver.py *)

(** The loop of [choose_variable] that fills [counts]. *)
Definition count_clause (assignment : Assignment) (counts : gmap string nat)
           (cl : Clause) : gmap string nat :=
  match Clause_evaluate cl assignment with
  | Some true => counts
  | _ =>
      foldl (λ (d : gmap string nat) lit,
               match Literal_eval lit assignment with
               | None => <[name lit := default 0 (d !! name lit) + 1]> d
               | Some _ => d
               end)
            counts (elements (literals cl))
  end.

Definition occurrence_counts (formula : Formula) (assignment : Assignment)
  : gmap string nat :=
  foldl (count_clause assignment) ∅ (elements (clauses formula)).

(** [max(items, key=lambda kv: kv[1])]: the first item with the largest
    count in iteration order. *)
Definition keep_max (best : option (string * nat)) (kv : string * nat)
  : option (string * nat) :=
  match best with
  | None => Some kv
  | Some b => if bool_decide (b.2 < kv.2) then Some kv else Some b
  end.

Definition max_by_count (items : list (string * nat)) : option (string * nat) :=
  foldl keep_max None items.

(** [choose_variable]: [max_by_count] of the items is [None] exactly when
    [counts] is empty, the case in which the source falls back to
    [next(iter(remaining))]. *)
Definition choose_variable (formula : Formula) (assignment : Assignment)
  : outcome string :=
  let counts := occurrence_counts formula assignment in
  match max_by_count (map_to_list counts) with
  | None =>
      let remaining := Formula_variables formula ∖ dom assignment in
      match elements remaining with
      | v :: _ => Ret v
      | [] => StopIteration
      end
  | Some kv => Ret kv.1
  end.

(** The search for [target] in the unit-propagation loop: the first literal
    of the clause that is undecided. *)
Fixpoint find_target (lits : list Literal) (assignment : Assignment) : option Literal :=
  match lits with
  | [] => None
  | lit :: rest =>
      match Literal_eval lit assignment with
      | None => Some lit
      | Some _ => find_target rest assignment
      end
  end.

(** [for cl in units: ...].  The list [units] was computed before the loop
    and is not refreshed while the formula and the assignment change.  The
    result carries the contradiction flag of the last reduction. *)
Fixpoint for_units (units : list Clause) (current_formula : Formula)
         (current_assignment : Assignment)
  : outcome (Formula * Assignment * bool) :=
  match units with
  | [] => Ret (current_formula, current_assignment, false)
  | cl :: rest =>
      match find_target (elements (literals cl)) current_assignment with
      | None => AssertionError
      | Some target =>
          let current_assignment :=
            <[name target := negb (negated target)]> current_assignment in
          let '(current_formula, contradict) :=
            Formula_reduce current_formula {[name target := negb (negated target)]} in
          if contradict then Ret (current_formula, current_assignment, true)
          else for_units rest current_formula current_assignment
      end
  end.

(** The inner [while True] loop.  Result: formula, assignment, the flag
    [changed], and whether a contradiction was met. *)
Fixpoint unit_propagation (fuel : nat) (current_formula : Formula)
         (current_assignment : Assignment) (changed : bool)
  : outcome (Formula * Assignment * bool * bool) :=
  match fuel with
  | 0 => OutOfFuel
  | S fuel' =>
      let units := Formula_unit_clauses current_formula current_assignment in
      if decide (units = ∅) then
        Ret (current_formula, current_assignment, changed, false)
      else
        match for_units (elements units) current_formula current_assignment with
        | Ret (f, a, true) => Ret (f, a, changed, true)
        | Ret (f, a, false) => unit_propagation fuel' f a true
        | AssertionError => AssertionError
        | StopIteration => StopIteration
        | OutOfFuel => OutOfFuel
        end
  end.

(** [current_assignment[lit.name] = not lit.negated] for every literal of a
    set; with [∅] as the start this is also the dictionary [partial]. *)
Definition bind_literals (lits : list Literal) (assignment : Assignment) : Assignment :=
  foldl (λ (a : Assignment) lit, <[name lit := negb (negated lit)]> a) assignment lits.

(** The pure-literal block of [simplify]. *)
Definition pure_literal_elimination (current_formula : Formula)
           (current_assignment : Assignment) (changed : bool)
  : Formula * Assignment * bool * bool :=
  let pures := Formula_pure_literals current_formula current_assignment in
  if decide (pures = ∅) then
    (current_formula, current_assignment, changed, false)
  else
    let current_assignment := bind_literals (elements pures) current_assignment in
    let partial := bind_literals (elements pures) ∅ in
    let '(current_formula, contradict) := Formula_reduce current_formula partial in
    if contradict then (current_formula, current_assignment, changed, true)
    else (current_formula, current_assignment, true, false).

(** The outer [while changed] loop. *)
Fixpoint simplify_loop (fuel : nat) (current_formula : Formula)
         (current_assignment : Assignment)
  : outcome (Formula * Assignment * bool) :=
  match fuel with
  | 0 => OutOfFuel
  | S fuel' =>
      match unit_propagation fuel current_formula current_assignment false with
      | Ret (f, a, _, true) => Ret (f, a, false)
      | Ret (f, a, changed, false) =>
          match pure_literal_elimination f a changed with
          | (f, a, _, true) => Ret (f, a, false)
          | (f, a, true, false) => simplify_loop fuel' f a
          | (f, a, false, false) => Ret (f, a, true)
          end
      | AssertionError => AssertionError
      | StopIteration => StopIteration
      | OutOfFuel => OutOfFuel
      end
  end.

Definition simplify (fuel : nat) (formula : Formula) (assignment : Assignment)
  : outcome (Formula * Assignment * bool) :=
  simplify_loop fuel formula assignment.

(** [for v in formula.variables(): if v not in total: total[v] = False]. *)
Definition totalize (formula : Formula) (assignment : Assignment) : Assignment :=
  foldl (λ (total : Assignment) v,
           match total !! v with
           | None => <[v := false]> total
           | Some _ => total
           end)
        assignment (elements (Formula_variables formula)).

(** [for choice in (True, False): ...], with the recursive call abstracted
    as [rec]. *)
Fixpoint for_choices (rec : Formula → Assignment → outcome (option Assignment))
         (choices : list bool) (formula : Formula) (assignment : Assignment)
         (var : string) : outcome (option Assignment) :=
  match choices with
  | [] => Ret None
  | choice :: rest =>
      let new_assign := <[var := choice]> assignment in
      let '(reduced, contradict) := Formula_reduce formula {[var := choice]} in
      if contradict then for_choices rec rest formula assignment var
      else
        match rec reduced new_assign with
        | Ret None => for_choices rec rest formula assignment var
        | r => r
        end
  end.

(** [dpll]: [depth] bounds the depth of the recursion, [fuel] the number of
    passes of each loop of [simplify]. *)
Fixpoint dpll (depth fuel : nat) (formula : Formula) (assignment : Assignment)
  : outcome (option Assignment) :=
  match depth with
  | 0 => OutOfFuel
  | S depth' =>
      match simplify fuel formula assignment with
      | Ret (formula, assignment, ok) =>
          if negb ok then Ret None
          else
            match Formula_evaluate formula assignment with
            | Some true => Ret (Some (totalize formula assignment))
            | Some false => Ret None
            | None =>
                match choose_variable formula assignment with
                | Ret var =>
                    for_choices (dpll depth' fuel) [true; false]
                                formula assignment var
                | AssertionError => AssertionError
                | StopIteration => StopIteration
                | OutOfFuel => OutOfFuel
                end
            end
      | AssertionError => AssertionError
      | StopIteration => StopIteration
      | OutOfFuel => OutOfFuel
      end
  end.

Definition solve (depth fuel : nat) (formula : Formula)
  : outcome (option Assignment) :=
  dpll depth fuel formula ∅.

(** ** Vocabulary of the statements *)

(** The undecided literals of a clause. *)
Definition undecided_literals (c : Clause) (A : Assignment) : gset Literal :=
  filter (λ l, Literal_eval l A = None) (literals c).

(** An assignment satisfies a clause when it makes one of its literals
    true, and a formula when it satisfies each of its clauses. *)
Definition sat_clause (T : Assignment) (c : Clause) : Prop :=
  ∃ l, l ∈ literals c ∧ Literal_eval l T = Some true.

Definition sat (T : Assignment) (F : Formula) : Prop :=
  ∀ c, c ∈ clauses F → sat_clause T c.

(** Some clause of the formula reduces to the empty clause. *)
Definition reduces_to_empty (F : Formula) (A : Assignment) : Prop :=
  ∃ c, c ∈ clauses F ∧ Clause_reduce c A = Some (mkClause ∅).

Definition refines (F' F : Formula) : Prop :=
  ∀ c', c' ∈ clauses F' → ∃ c, c ∈ clauses F ∧ literals c' ⊆ literals c.

(** A clause is tautological when it has a variable under both polarities. *)
Definition tautological (c : Clause) : Prop :=
  ∃ v, mkLiteral v false ∈ literals c ∧ mkLiteral v true ∈ literals c.

Definition tautology_free (F : Formula) : Prop :=
  ∀ c, c ∈ clauses F → ¬ tautological c.

(** The polarities recorded for a variable ([∅] for an absent key). *)
Definition signs_of (d : gmap string (gset bool)) (v : string) : gset bool :=
  default ∅ (d !! v).

(** The literal occurs undecided in a clause that is not already true. *)
Definition occurs_undecided (F : Formula) (A : Assignment) (l : Literal) : Prop :=
  ∃ c, c ∈ clauses F ∧ Clause_evaluate c A ≠ Some true ∧
       l ∈ literals c ∧ Literal_eval l A = None.

Definition negate (l : Literal) : Literal := mkLiteral (name l) (negb (negated l)).

(** The formula has a model that agrees with the assignment. *)
Definition satisfiable_from (A : Assignment) (F : Formula) : Prop :=
  ∃ T : Assignment, A ⊆ T ∧ sat T F.

(** At most one literal of the clause is not false. *)
Definition almost_false (cl : Clause) (A : Assignment) : Prop :=
  ∀ l1 l2, l1 ∈ literals cl → l2 ∈ literals cl →
           Literal_eval l1 A ≠ Some false → Literal_eval l2 A ≠ Some false →
           l1 = l2.

(** The variables of the working formula are not bound by the assignment:
    this holds at the call of [solve] and is kept by every step. *)
Definition disjoint_state (F : Formula) (A : Assignment) : Prop :=
  Formula_variables F ## dom A.

Global Instance reduces_to_empty_dec F A : Decision (reduces_to_empty F A).
Proof.
  refine (cast_if (decide (set_Exists (λ c, Clause_reduce c A = Some (mkClause ∅)) (clauses F))));
    unfold reduces_to_empty, set_Exists in *; naive_solver.
Defined.

Global Instance occurs_undecided_dec F A l : Decision (occurs_undecided F A l).
Proof.
  refine (cast_if (decide (set_Exists
            (λ c, Clause_evaluate c A ≠ Some true ∧ l ∈ literals c ∧
                  Literal_eval l A = None) (clauses F))));
    unfold occurs_undecided, set_Exists in *; naive_solver.
Defined.

Global Instance disjoint_state_dec F A : Decision (disjoint_state F A).
Proof. unfold disjoint_state. apply _. Defined.

(** ** Example formulas *)

Definition pos (v : string) : Literal := mkLiteral v false.
Definition neg (v : string) : Literal := mkLiteral v true.

(** [(A ∨ ¬B) ∧ (B ∨ C) ∧ ¬C], with the single model A, B true and C false. *)
Definition example_chain : Formula :=
  Formula_of [Clause_of [pos "A"; neg "B"]; Clause_of [pos "B"; pos "C"];
              Clause_of [neg "C"]].

Definition example_chain_model : Assignment :=
  list_to_map [("A", true); ("B", true); ("C", false)].

(** [A ∧ ¬A]. *)
Definition example_conflict : Formula :=
  Formula_of [Clause_of [pos "A"]; Clause_of [neg "A"]].

(** [(A ∨ B) ∧ (¬A ∨ B)]: B is pure, A is not. *)
Definition example_pure : Formula :=
  Formula_of [Clause_of [pos "A"; pos "B"]; Clause_of [neg "A"; pos "B"]].

(** [(A ∨ B) ∧ (¬B ∨ C)]: B occurs twice, A and C once. *)
Definition example_branch : Formula :=
  Formula_of [Clause_of [pos "A"; pos "B"]; Clause_of [neg "B"; pos "C"]].

(** [(A ∨ B) ∧ (¬A ∨ ¬B)]: no unit clause and no pure literal. *)
Definition example_xor : Formula :=
  Formula_of [Clause_of [pos "A"; pos "B"]; Clause_of [neg "A"; neg "B"]].




(** [(A ∨ ¬A ∨ B)], built without [Formula.of]. *)
Definition example_tautology : Clause := Clause_of [pos "A"; neg "A"; pos "B"].

(** ** Vocabulary of the further properties *)

Global Instance outcome_eq_dec {T} `{EqDecision T} : EqDecision (outcome T).
Proof. solve_decision. Defined.

(** The number of undecided occurrences of a variable in the clauses that
    are not already true: what the docstring of [choose_variable] calls the
    frequency of the variable. *)
Definition occurrences (F : Formula) (A : Assignment) (v : string) : nat :=
  sum_list
    (map (λ cl,
            match Clause_evaluate cl A with
            | Some true => 0
            | _ =>
                length (filter (λ lit, name lit = v ∧ Literal_eval lit A = None)
                               (elements (literals cl)))
            end)
         (elements (clauses F))).

(** ** io.py and run_solver.py *)

(** The body of the loop of [parse_clause]: a token that starts with [-]
    is the negation of the rest of the token ([tok[len("-"):]]), any other
    token is the variable itself. *)
Definition parse_token (tok : string) : Literal :=
  match tok with
  | String c rest =>
      if decide (c = "-"%char) then mkLiteral rest true else mkLiteral tok false
  | EmptyString => mkLiteral tok false
  end.

(** [parse_clause], given the list [line.strip().split()] of the
    whitespace-separated pieces of the line: the comprehension keeps the
    non-empty tokens, the loop collects their literals in a set, and the
    clause is built by [Clause.of]. *)
Definition parse_clause (pieces : list string) : Clause :=
  let tokens := filter (λ tok, tok ≠ EmptyString) pieces in
  let lits : gset Literal :=
    foldl (λ (lits : gset Literal) tok, {[parse_token tok]} ∪ lits) ∅ tokens in
  Clause_of (elements lits).

(** The reading loop of [read_formula_from_stdin], given for each line of
    the input the list of its whitespace-separated pieces: a line without
    pieces is a line that is empty once stripped, and the end of the list
    is the end of the input (where [input] raises and the loop breaks). *)
Fixpoint read_clauses (lines : list (list string)) (clauses : gset Clause)
  : gset Clause :=
  match lines with
  | [] => clauses
  | pieces :: rest =>
      if decide (pieces = []) then clauses
      else read_clauses rest ({[parse_clause pieces]} ∪ clauses)
  end.

Definition read_formula (lines : list (list string)) : Formula :=
  Formula_of (elements (read_clauses lines ∅)).

(** The status returned by [main] of run_solver.py (what it prints is left
    out): 1 when [solve] returns [None], 0 otherwise. *)
Definition main (depth fuel : nat) (lines : list (list string)) : outcome nat :=
  let formula := read_formula lines in
  match solve depth fuel formula with
  | Ret None => Ret 1
  | Ret (Some model) =>
      if decide (clauses formula = ∅) then Ret 0 else Ret 0
  | AssertionError => AssertionError
  | StopIteration => StopIteration
  | OutOfFuel => OutOfFuel
  end.

(** * Properties *)

(** ** Literals and clauses *)

Lemma Literal_eval_None l (A : Assignment) :
  Literal_eval l A = None ↔ A !! name l = None.
Proof. unfold Literal_eval. destruct (A !! name l); naive_solver. Qed.

Lemma Literal_eval_is_Some l (A : Assignment) :
  is_Some (Literal_eval l A) ↔ name l ∈ dom A.
Proof.
  rewrite elem_of_dom. unfold Literal_eval.
  destruct (A !! name l); split; intros [? ?]; by eauto.
Qed.

(** A literal is true exactly when its variable is bound to the value
    [negb (negated l)]. *)
Lemma Literal_eval_true l (A : Assignment) :
  Literal_eval l A = Some true ↔ A !! name l = Some (negb (negated l)).
Proof.
  unfold Literal_eval.
  destruct (A !! name l) as [[]|], (negated l); naive_solver.
Qed.

Lemma Literal_eval_false l (A : Assignment) :
  Literal_eval l A = Some false ↔ A !! name l = Some (negated l).
Proof.
  unfold Literal_eval.
  destruct (A !! name l) as [[]|], (negated l); naive_solver.
Qed.

(** Values of literals are kept by a larger assignment. *)
Lemma Literal_eval_mono l (A B : Assignment) b :
  A ⊆ B → Literal_eval l A = Some b → Literal_eval l B = Some b.
Proof.
  intros HAB. unfold Literal_eval.
  destruct (A !! name l) as [v|] eqn:E; [|done].
  by rewrite (lookup_weaken _ _ _ _ E HAB).
Qed.

Lemma evaluate_clause_loop_true lits A u :
  evaluate_clause_loop lits A u = Some true ↔
  ∃ l, l ∈ lits ∧ Literal_eval l A = Some true.
Proof.
  revert u. induction lits as [|x lits IH]; intros u; simpl.
  - destruct u; split; try done; intros (l & Hl & _); by apply not_elem_of_nil in Hl.
  - destruct (Literal_eval x A) as [[]|] eqn:E.
    + split; [|done]. intros _. exists x. split; [left|done].
    + rewrite IH. split; intros (l & Hl & Ht).
      * exists l. split; [by right|done].
      * apply elem_of_cons in Hl as [->|Hl]; [congruence|eauto].
    + rewrite IH. split; intros (l & Hl & Ht).
      * exists l. split; [by right|done].
      * apply elem_of_cons in Hl as [->|Hl]; [congruence|eauto].
Qed.

Lemma evaluate_clause_loop_false lits A u :
  evaluate_clause_loop lits A u = Some false ↔
  u = false ∧ ∀ l, l ∈ lits → Literal_eval l A = Some false.
Proof.
  revert u. induction lits as [|x lits IH]; intros u; simpl.
  - destruct u; split; try done.
    + by intros [? _].
    + intros _. split; [done|]. intros l Hl. by apply not_elem_of_nil in Hl.
  - destruct (Literal_eval x A) as [[]|] eqn:E.
    + split; [done|]. intros [_ H]. specialize (H x (list_elem_of_here _ _)). congruence.
    + rewrite IH. split.
      * intros [-> H]. split; [done|]. intros l [->|Hl]%elem_of_cons; eauto.
      * intros [-> H]. split; [done|]. intros l Hl. apply H. by right.
    + rewrite IH. split; [by intros [? _]|].
      intros [_ H]. specialize (H x (list_elem_of_here _ _)). congruence.
Qed.

Lemma Clause_evaluate_true c A :
  Clause_evaluate c A = Some true ↔
  ∃ l, l ∈ literals c ∧ Literal_eval l A = Some true.
Proof.
  unfold Clause_evaluate. rewrite evaluate_clause_loop_true.
  by setoid_rewrite elem_of_elements.
Qed.

Lemma Clause_evaluate_false c A :
  Clause_evaluate c A = Some false ↔
  ∀ l, l ∈ literals c → Literal_eval l A = Some false.
Proof.
  unfold Clause_evaluate. rewrite evaluate_clause_loop_false.
  setoid_rewrite elem_of_elements. naive_solver.
Qed.

(** [Clause.reduce] on a list of literals, with its accumulator. *)
Lemma reduce_clause_loop_None lits A acc :
  reduce_clause_loop lits A acc = None ↔
  ∃ l, l ∈ lits ∧ Literal_eval l A = Some true.
Proof.
  revert acc. induction lits as [|x lits IH]; intros acc; simpl.
  - split; [done|]. intros (l & Hl & _). by apply not_elem_of_nil in Hl.
  - destruct (Literal_eval x A) as [[]|] eqn:E.
    + split; [|done]. intros _. exists x. split; [left|done].
    + rewrite IH. split; intros (l & Hl & Ht).
      * exists l. split; [by right|done].
      * apply elem_of_cons in Hl as [->|Hl]; [congruence|eauto].
    + rewrite IH. split; intros (l & Hl & Ht).
      * exists l. split; [by right|done].
      * apply elem_of_cons in Hl as [->|Hl]; [congruence|eauto].
Qed.

Lemma reduce_clause_loop_Some lits A acc c' :
  reduce_clause_loop lits A acc = Some c' →
  ∀ l, l ∈ literals c' ↔ l ∈ acc ∨ (l ∈ lits ∧ Literal_eval l A = None).
Proof.
  revert acc. induction lits as [|x lits IH]; intros acc; simpl.
  - intros [= <-] l. simpl. split; [by left|].
    intros [?|[Hl _]]; [done|]. by apply not_elem_of_nil in Hl.
  - destruct (Literal_eval x A) as [[]|] eqn:E; [done| |].
    + intros H l. rewrite (IH _ H), elem_of_cons. split.
      * intros [?|[? ?]]; eauto.
      * intros [?|[[->|?] ?]]; [eauto|congruence|eauto].
    + intros H l. rewrite (IH _ H), elem_of_cons, elem_of_union, elem_of_singleton. split.
      * intros [[->|?]|[? ?]]; eauto.
      * intros [?|[[->|?] ?]]; eauto.
Qed.

Lemma Clause_reduce_None c A :
  Clause_reduce c A = None ↔
  ∃ l, l ∈ literals c ∧ Literal_eval l A = Some true.
Proof.
  unfold Clause_reduce. rewrite reduce_clause_loop_None.
  by setoid_rewrite elem_of_elements.
Qed.

Lemma Clause_reduce_None_evaluate c A :
  Clause_reduce c A = None ↔ Clause_evaluate c A = Some true.
Proof. by rewrite Clause_reduce_None, Clause_evaluate_true. Qed.

Lemma elem_of_undecided_literals c A l :
  l ∈ undecided_literals c A ↔ l ∈ literals c ∧ Literal_eval l A = None.
Proof. unfold undecided_literals. rewrite elem_of_filter. naive_solver. Qed.

Lemma Clause_reduce_Some c A c' :
  Clause_reduce c A = Some c' ↔
  (∀ l, l ∈ literals c → Literal_eval l A ≠ Some true) ∧
  c' = mkClause (undecided_literals c A).
Proof.
  split.
  - intros H. split.
    + intros l Hl Ht.
      assert (Clause_reduce c A = None) by (apply Clause_reduce_None; eauto).
      congruence.
    + destruct c' as [s]. f_equal. apply set_eq. intros l.
      unfold Clause_reduce in H.
      rewrite (reduce_clause_loop_Some _ _ _ _ H l), elem_of_undecided_literals.
      simpl. rewrite elem_of_elements. set_solver.
  - intros [Hn ->].
    destruct (Clause_reduce c A) as [d|] eqn:E.
    + f_equal. destruct d as [s]. f_equal. apply set_eq. intros l.
      unfold Clause_reduce in E.
      rewrite (reduce_clause_loop_Some _ _ _ _ E l), elem_of_undecided_literals.
      simpl. rewrite elem_of_elements. set_solver.
    + apply Clause_reduce_None in E as (l & Hl & Ht). by destruct (Hn l Hl).
Qed.

(** [Clause.is_unit]: the counter holds the number of undecided literals
    met so far. *)
Lemma is_unit_loop_true lits A n :
  is_unit_loop lits A n = true ↔
  (∀ l, l ∈ lits → Literal_eval l A ≠ Some true) ∧
  n + length (filter (λ l, Literal_eval l A = None) lits) = 1.
Proof.
  revert n. induction lits as [|x lits IH]; intros n; simpl.
  - rewrite bool_decide_eq_true. split.
    + intros ->. split; [|done]. intros l Hl. by apply not_elem_of_nil in Hl.
    + intros [_ H]. lia.
  - rewrite filter_cons.
    destruct (Literal_eval x A) as [[]|] eqn:E.
    + split; [done|]. intros [H _]. destruct (H x); [left|done].
    + rewrite decide_False by done. rewrite IH. split.
      * intros [H ?]. split; [|done]. intros l [->|?]%elem_of_cons; [congruence|eauto].
      * intros [H ?]. split; [|done]. intros l Hl. apply H. by right.
    + rewrite decide_True by done. simpl. case_bool_decide as Hn.
      * split; [done|]. intros [_ ?]. lia.
      * rewrite IH. split.
        -- intros [H ?]. split; [|lia]. intros l [->|?]%elem_of_cons; [congruence|eauto].
        -- intros [H ?]. split; [|lia]. intros l Hl. apply H. by right.
Qed.

Lemma length_one_filter {T} (P : T → Prop) `{∀ x, Decision (P x)} (l : list T) :
  NoDup l →
  length (filter P l) = 1 ↔ ∃ u, u ∈ l ∧ P u ∧ ∀ x, x ∈ l → P x → x = u.
Proof.
  intros Hnd. split.
  - intros Hlen. destruct (filter P l) as [|u [|? ?]] eqn:E; simplify_eq/=.
    exists u. assert (Hu : u ∈ filter P l) by (rewrite E; left).
    apply list_elem_of_filter in Hu as [? ?]. repeat split; [done..|].
    intros x Hx HP. assert (Hx' : x ∈ filter P l) by (by apply list_elem_of_filter).
    rewrite E in Hx'. by apply list_elem_of_singleton in Hx'.
  - intros (u & Hu & HPu & Huniq).
    assert (Hnd' : NoDup (filter P l)) by (by apply NoDup_filter).
    assert (Hin : u ∈ filter P l) by (by apply list_elem_of_filter).
    destruct (filter P l) as [|a [|b r]] eqn:E.
    + by apply not_elem_of_nil in Hin.
    + done.
    + exfalso.
      assert (Ha : a ∈ filter P l) by (rewrite E; left).
      assert (Hb : b ∈ filter P l) by (rewrite E; right; left).
      apply list_elem_of_filter in Ha as [? ?]. apply list_elem_of_filter in Hb as [? ?].
      assert (a = b) by (transitivity u; [|symmetry]; eauto). subst b.
      apply NoDup_cons in Hnd' as [Hnotin _]. apply Hnotin. left.
Qed.

(** A clause is unit when no literal is true and exactly one is undecided. *)
Lemma Clause_is_unit_true c A :
  Clause_is_unit c A = true ↔
  (∀ l, l ∈ literals c → Literal_eval l A ≠ Some true) ∧
  ∃ u, u ∈ literals c ∧ Literal_eval u A = None ∧
       ∀ l, l ∈ literals c → Literal_eval l A = None → l = u.
Proof.
  unfold Clause_is_unit. rewrite is_unit_loop_true. simpl.
  rewrite (length_one_filter _ _ (NoDup_elements _)).
  by repeat setoid_rewrite elem_of_elements.
Qed.

Lemma find_target_Some lits A t :
  find_target lits A = Some t → t ∈ lits ∧ Literal_eval t A = None.
Proof.
  induction lits as [|x lits IH]; simpl; [done|].
  destruct (Literal_eval x A) eqn:E.
  - intros [? ?]%IH. split; [by right|done].
  - intros [= ->]. split; [left|done].
Qed.

Lemma find_target_None lits A :
  find_target lits A = None ↔ ∀ l, l ∈ lits → Literal_eval l A ≠ None.
Proof.
  induction lits as [|x lits IH]; simpl.
  - split; [|done]. intros _ l Hl. by apply not_elem_of_nil in Hl.
  - destruct (Literal_eval x A) eqn:E.
    + rewrite IH. split.
      * intros H l [->|?]%elem_of_cons; [congruence|eauto].
      * intros H l Hl. apply H. by right.
    + split; [done|]. intros H. destruct (H x); [left|done].
Qed.

(** ** Satisfaction *)

Lemma sat_clause_mono (T T' : Assignment) c :
  T ⊆ T' → sat_clause T c → sat_clause T' c.
Proof. intros HT (l & Hl & Ht). exists l. eauto using Literal_eval_mono. Qed.

Lemma sat_mono (T T' : Assignment) F : T ⊆ T' → sat T F → sat T' F.
Proof. intros HT HF c Hc. eauto using sat_clause_mono. Qed.

(** ** Formulas *)

Lemma evaluate_formula_loop_true cls A u :
  evaluate_formula_loop cls A u = Some true ↔
  u = false ∧ ∀ c, c ∈ cls → Clause_evaluate c A = Some true.
Proof.
  revert u. induction cls as [|x cls IH]; intros u; simpl.
  - destruct u; split; try done.
    + by intros [? _].
    + intros _. split; [done|]. intros l Hl. by apply not_elem_of_nil in Hl.
  - destruct (Clause_evaluate x A) as [[]|] eqn:E.
    + rewrite IH. split.
      * intros [-> H]. split; [done|]. intros l [->|Hl]%elem_of_cons; eauto.
      * intros [-> H]. split; [done|]. intros l Hl. apply H. by right.
    + split; [done|]. intros [_ H]. specialize (H x (list_elem_of_here _ _)). congruence.
    + rewrite IH. split; [by intros [? _]|].
      intros [_ H]. specialize (H x (list_elem_of_here _ _)). congruence.
Qed.

Lemma evaluate_formula_loop_false cls A u :
  evaluate_formula_loop cls A u = Some false ↔
  ∃ c, c ∈ cls ∧ Clause_evaluate c A = Some false.
Proof.
  revert u. induction cls as [|x cls IH]; intros u; simpl.
  - destruct u; split; try done; intros (l & Hl & _); by apply not_elem_of_nil in Hl.
  - destruct (Clause_evaluate x A) as [[]|] eqn:E.
    + rewrite IH. split; intros (l & Hl & Ht).
      * exists l. split; [by right|done].
      * apply elem_of_cons in Hl as [->|Hl]; [congruence|eauto].
    + split; [|done]. intros _. exists x. split; [left|done].
    + rewrite IH. split; intros (l & Hl & Ht).
      * exists l. split; [by right|done].
      * apply elem_of_cons in Hl as [->|Hl]; [congruence|eauto].
Qed.

Lemma Formula_evaluate_true F A :
  Formula_evaluate F A = Some true ↔ sat A F.
Proof.
  unfold Formula_evaluate, sat. rewrite evaluate_formula_loop_true.
  setoid_rewrite elem_of_elements. setoid_rewrite Clause_evaluate_true.
  unfold sat_clause. naive_solver.
Qed.

Lemma Formula_evaluate_false F A :
  Formula_evaluate F A = Some false ↔
  ∃ c, c ∈ clauses F ∧ ∀ l, l ∈ literals c → Literal_eval l A = Some false.
Proof.
  unfold Formula_evaluate. rewrite evaluate_formula_loop_false.
  setoid_rewrite elem_of_elements. by setoid_rewrite Clause_evaluate_false.
Qed.

Lemma elem_of_Formula_unit_clauses F A cl :
  cl ∈ Formula_unit_clauses F A ↔ cl ∈ clauses F ∧ Clause_is_unit cl A = true.
Proof.
  unfold Formula_unit_clauses.
  rewrite elem_of_list_to_set, list_elem_of_filter, elem_of_elements. tauto.
Qed.

Lemma elem_of_Formula_variables F v :
  v ∈ Formula_variables F ↔
  ∃ c l, c ∈ clauses F ∧ l ∈ literals c ∧ name l = v.
Proof.
  unfold Formula_variables.
  assert (Hin : ∀ (lits : list Literal) (acc : gset string),
    v ∈ foldl (λ (acc : gset string) lit, {[name lit]} ∪ acc) acc lits ↔
    v ∈ acc ∨ ∃ l, l ∈ lits ∧ name l = v).
  { induction lits as [|x lits IH]; intros acc; simpl.
    - split; [by left|]. intros [?|(l & Hl & _)]; [done|]. by apply not_elem_of_nil in Hl.
    - rewrite IH, elem_of_union, elem_of_singleton. split.
      + intros [[->|?]|(l & ? & ?)]; [right; exists x|by left|right; exists l];
          (split; [by constructor|done]).
      + intros [?|(l & [->|?]%elem_of_cons & ?)]; eauto. }
  assert (Hout : ∀ (cls : list Clause) (acc : gset string),
    v ∈ foldl (λ (acc : gset string) clause,
                 foldl (λ (acc : gset string) lit, {[name lit]} ∪ acc)
                       acc (elements (literals clause))) acc cls ↔
    v ∈ acc ∨ ∃ c l, c ∈ cls ∧ l ∈ literals c ∧ name l = v).
  { induction cls as [|x cls IH]; intros acc; simpl.
    - split; [by left|]. intros [?|(c & l & Hc & _)]; [done|]. by apply not_elem_of_nil in Hc.
    - rewrite IH, Hin. setoid_rewrite elem_of_elements. split.
      + intros [[?|(l & ? & ?)]|(c & l & ? & ? & ?)]; [by left|right..].
        * exists x, l. split; [left|done].
        * exists c, l. split; [by right|done].
      + intros [?|(c & l & [->|?]%elem_of_cons & ? & ?)]; eauto 10. }
  rewrite Hout. setoid_rewrite elem_of_elements. set_solver.
Qed.

(** ** [Formula.reduce] *)

Lemma Clause_is_empty_true c : Clause_is_empty c = true ↔ c = mkClause ∅.
Proof.
  unfold Clause_is_empty. rewrite bool_decide_eq_true, size_empty_iff.
  destruct c as [s]. simpl. split.
  - intros H. f_equal. by apply leibniz_equiv.
  - by intros [= ->].
Qed.

Lemma reduce_formula_loop_contradiction cls A acc :
  (∃ c, c ∈ cls ∧ Clause_reduce c A = Some (mkClause ∅)) →
  reduce_formula_loop cls A acc = (mkFormula ∅, true).
Proof.
  revert acc. induction cls as [|x cls IH]; intros acc (c & Hc & Hred); simpl.
  - by apply not_elem_of_nil in Hc.
  - destruct (Clause_reduce x A) as [red|] eqn:E.
    + destruct (Clause_is_empty red) eqn:Hemp; [done|].
      apply IH. apply elem_of_cons in Hc as [->|Hc]; [|eauto].
      rewrite Hred in E. injection E as <-.
      by rewrite (proj2 (Clause_is_empty_true _) eq_refl) in Hemp.
    + apply IH. apply elem_of_cons in Hc as [->|Hc]; [congruence|eauto].
Qed.

Lemma reduce_formula_loop_ok cls A acc :
  (∀ c, c ∈ cls → Clause_reduce c A ≠ Some (mkClause ∅)) →
  reduce_formula_loop cls A acc =
  (mkFormula (list_to_set (omap (λ c, Clause_reduce c A) cls) ∪ acc), false).
Proof.
  revert acc. induction cls as [|x cls IH]; intros acc Hne; simpl.
  - do 2 f_equal. set_solver.
  - assert (Hx := Hne x (list_elem_of_here _ _)).
    assert (Hrest : ∀ c, c ∈ cls → Clause_reduce c A ≠ Some (mkClause ∅))
      by (intros c Hc; apply Hne; by right).
    destruct (Clause_reduce x A) as [red|] eqn:E.
    + destruct (Clause_is_empty red) eqn:Hemp.
      * apply Clause_is_empty_true in Hemp as ->. done.
      * rewrite IH by done. simpl. do 2 f_equal.
        apply set_eq. intros z. set_solver.
    + by rewrite IH.
Qed.

Lemma Formula_reduce_contradiction F A :
  reduces_to_empty F A → Formula_reduce F A = (mkFormula ∅, true).
Proof.
  intros (c & Hc & Hred). apply reduce_formula_loop_contradiction.
  exists c. by rewrite elem_of_elements.
Qed.

Lemma Formula_reduce_ok F A :
  ¬ reduces_to_empty F A →
  Formula_reduce F A =
  (mkFormula (set_omap (λ c, Clause_reduce c A) (clauses F)), false).
Proof.
  intros Hne. unfold Formula_reduce. rewrite reduce_formula_loop_ok.
  - unfold set_omap. do 2 f_equal. set_solver.
  - intros c Hc Hred. apply Hne. exists c. by rewrite <-elem_of_elements.
Qed.

Lemma Formula_reduce_flag F A :
  (Formula_reduce F A).2 = true ↔ reduces_to_empty F A.
Proof.
  destruct (decide (reduces_to_empty F A)) as [H|H].
  - by rewrite Formula_reduce_contradiction.
  - by rewrite Formula_reduce_ok.
Qed.

(** The three facts used about a reduction without contradiction. *)
Lemma Formula_reduce_false F A F' :
  Formula_reduce F A = (F', false) →
  ¬ reduces_to_empty F A ∧
  ∀ c', c' ∈ clauses F' ↔ ∃ c, c ∈ clauses F ∧ Clause_reduce c A = Some c'.
Proof.
  intros H. destruct (decide (reduces_to_empty F A)) as [He|He].
  - rewrite Formula_reduce_contradiction in H by done. done.
  - split; [done|]. rewrite Formula_reduce_ok in H by done.
    injection H as <-. intros c'. simpl. by rewrite elem_of_set_omap.
Qed.

Lemma Formula_reduce_true F A F' :
  Formula_reduce F A = (F', true) → reduces_to_empty F A ∧ F' = mkFormula ∅.
Proof.
  intros H. destruct (decide (reduces_to_empty F A)) as [He|He].
  - rewrite Formula_reduce_contradiction in H by done. naive_solver.
  - rewrite Formula_reduce_ok in H by done. done.
Qed.

(** Sizes: reduction never adds clauses, and loses one for each dropped
    clause. *)
Lemma size_list_to_set_le `{Countable T} (l : list T) :
  size (list_to_set l : gset T) ≤ length l.
Proof.
  induction l as [|x l IH].
  - by rewrite list_to_set_nil, size_empty.
  - rewrite list_to_set_cons, size_union_alt, size_singleton. cbn [length].
    assert (size (list_to_set l ∖ {[x]} : gset T) ≤ size (list_to_set l : gset T))
      by (apply subseteq_size; set_solver).
    lia.
Qed.

Lemma length_omap_le {T U} (f : T → option U) (l : list T) :
  length (omap f l) ≤ length l.
Proof. induction l as [|x l IH]; csimpl; [done|]. destruct (f x); simpl; lia. Qed.

Lemma length_omap_lt {T U} (f : T → option U) (l : list T) x :
  x ∈ l → f x = None → length (omap f l) < length l.
Proof.
  induction l as [|y l IH]; csimpl; intros Hx Hf.
  - by apply not_elem_of_nil in Hx.
  - apply elem_of_cons in Hx as [<-|Hx].
    + rewrite Hf. pose proof (length_omap_le f l). lia.
    + specialize (IH Hx Hf). destruct (f y); simpl; lia.
Qed.

Lemma Formula_reduce_size F A :
  size (clauses (Formula_reduce F A).1) ≤ size (clauses F).
Proof.
  destruct (decide (reduces_to_empty F A)) as [H|H].
  - rewrite Formula_reduce_contradiction by done. cbn [fst clauses]. rewrite size_empty. lia.
  - rewrite Formula_reduce_ok by done. cbn [fst clauses]. unfold set_omap.
    etrans; [apply size_list_to_set_le|]. apply length_omap_le.
Qed.

Lemma Formula_reduce_size_lt F A c :
  c ∈ clauses F → Clause_reduce c A = None →
  size (clauses F) ≠ 0 ∧ size (clauses (Formula_reduce F A).1) < size (clauses F).
Proof.
  intros Hc Hred.
  assert (Hpos : size (clauses F) ≠ 0).
  { intros Hz. apply size_empty_iff in Hz. set_solver. }
  split; [done|].
  destruct (decide (reduces_to_empty F A)) as [H|H].
  - rewrite Formula_reduce_contradiction by done. cbn [fst clauses]. rewrite size_empty. lia.
  - rewrite Formula_reduce_ok by done. cbn [fst clauses]. unfold set_omap.
    eapply Nat.le_lt_trans; [apply size_list_to_set_le|].
    eapply length_omap_lt; [|done]. by apply elem_of_elements.
Qed.

(** ** Formulas obtained by removing clauses and literals *)

Lemma refines_refl F : refines F F.
Proof. intros c Hc. by exists c. Qed.

Lemma refines_trans F1 F2 F3 : refines F1 F2 → refines F2 F3 → refines F1 F3.
Proof.
  intros H12 H23 c1 Hc1.
  destruct (H12 c1 Hc1) as (c2 & Hc2 & Hs12).
  destruct (H23 c2 Hc2) as (c3 & Hc3 & Hs23).
  exists c3. split; [done|]. set_solver.
Qed.

Lemma refines_variables F' F :
  refines F' F → Formula_variables F' ⊆ Formula_variables F.
Proof.
  intros Href v. rewrite !elem_of_Formula_variables.
  intros (c' & l & Hc' & Hl & Hv).
  destruct (Href c' Hc') as (c & Hc & Hsub).
  exists c, l. set_solver.
Qed.

Lemma Formula_reduce_refines F A : refines (Formula_reduce F A).1 F.
Proof.
  destruct (Formula_reduce F A) as [F' []] eqn:E; simpl.
  - apply Formula_reduce_true in E as [_ ->]. intros c Hc. set_solver.
  - apply Formula_reduce_false in E as [_ Hin]. intros c' Hc'.
    apply Hin in Hc' as (c & Hc & Hred). exists c. split; [done|].
    apply Clause_reduce_Some in Hred as [_ ->]. simpl.
    intros l. rewrite elem_of_undecided_literals. tauto.
Qed.

(** Reduction removes every variable the assignment binds. *)
Lemma Formula_reduce_variables F A :
  Formula_variables (Formula_reduce F A).1 ⊆ Formula_variables F ∖ dom A.
Proof.
  intros v Hv. apply elem_of_difference. split.
  - by apply (refines_variables _ _ (Formula_reduce_refines F A)).
  - destruct (Formula_reduce F A) as [F' []] eqn:E; simpl in *.
    + apply Formula_reduce_true in E as [_ ->].
      apply elem_of_Formula_variables in Hv as (c & l & Hc & _). set_solver.
    + apply Formula_reduce_false in E as [_ Hin].
      apply elem_of_Formula_variables in Hv as (c' & l & Hc' & Hl & <-).
      apply Hin in Hc' as (c & Hc & Hred).
      apply Clause_reduce_Some in Hred as [_ ->]. simpl in Hl.
      apply elem_of_undecided_literals in Hl as [_ Hl].
      apply Literal_eval_None in Hl. by apply not_elem_of_dom.
Qed.

(** ** Polarity dictionaries and tautologies *)

Lemma signs_of_add_sign d lit v b :
  b ∈ signs_of (add_sign d lit) v ↔ b ∈ signs_of d v ∨ lit = mkLiteral v b.
Proof.
  unfold signs_of, add_sign. destruct lit as [n s]. cbn [name negated].
  destruct (decide (n = v)) as [->|Hne].
  - rewrite lookup_insert_eq. cbn [default from_option id].
    rewrite elem_of_union, elem_of_singleton. naive_solver.
  - rewrite lookup_insert_ne by done. naive_solver.
Qed.

Lemma signs_of_names_to_signs_fold lits d v b :
  b ∈ signs_of (foldl add_sign d lits) v ↔
  b ∈ signs_of d v ∨ mkLiteral v b ∈ lits.
Proof.
  revert d. induction lits as [|x lits IH]; intros d; cbn [foldl].
  - rewrite elem_of_nil. tauto.
  - rewrite IH, signs_of_add_sign, elem_of_cons. naive_solver.
Qed.

Lemma signs_of_names_to_signs lits v b :
  b ∈ signs_of (names_to_signs lits) v ↔ mkLiteral v b ∈ lits.
Proof.
  unfold names_to_signs. rewrite signs_of_names_to_signs_fold.
  unfold signs_of. rewrite lookup_empty. set_solver.
Qed.

(** A set of booleans has two members exactly when it has both. *)
Lemma size_bool_set_2 (s : gset bool) : size s = 2 ↔ true ∈ s ∧ false ∈ s.
Proof.
  split.
  - intros Hs. split.
    + destruct (decide (true ∈ s)); [done|].
      assert (size s ≤ size ({[false]} : gset bool)) as Hle.
      { apply subseteq_size. intros [] ?; set_solver. }
      rewrite size_singleton in Hle. lia.
    + destruct (decide (false ∈ s)); [done|].
      assert (size s ≤ size ({[true]} : gset bool)) as Hle.
      { apply subseteq_size. intros [] ?; set_solver. }
      rewrite size_singleton in Hle. lia.
  - intros [Ht Hf].
    assert (s = {[true]} ∪ {[false]}) as ->.
    { apply set_eq. intros []; set_solver. }
    rewrite size_union by set_solver. by rewrite !size_singleton.
Qed.

Lemma has_both_signs_true d :
  has_both_signs d = true ↔ ∃ v, true ∈ signs_of d v ∧ false ∈ signs_of d v.
Proof.
  unfold has_both_signs. rewrite existsb_exists. split.
  - intros ([v s] & Hin & Hsz). apply list_elem_of_In, elem_of_map_to_list in Hin.
    apply bool_decide_eq_true, size_bool_set_2 in Hsz. cbn [snd] in Hsz.
    exists v. unfold signs_of. by rewrite Hin.
  - intros (v & Ht & Hf). unfold signs_of in *.
    destruct (d !! v) as [s|] eqn:E; [|set_solver].
    exists (v, s). split.
    + by apply list_elem_of_In, elem_of_map_to_list.
    + apply bool_decide_eq_true, size_bool_set_2. done.
Qed.

Lemma has_both_signs_tautological c :
  has_both_signs (names_to_signs (elements (literals c))) = true ↔ tautological c.
Proof.
  rewrite has_both_signs_true. unfold tautological.
  setoid_rewrite signs_of_names_to_signs. setoid_rewrite elem_of_elements.
  naive_solver.
Qed.

(** [Formula.of] keeps exactly the clauses that are not tautological. *)
Lemma elem_of_Formula_of cls c :
  c ∈ clauses (Formula_of cls) ↔ c ∈ cls ∧ ¬ tautological c.
Proof.
  unfold Formula_of. cbn [clauses].
  assert (Hgen : ∀ acc : gset Clause,
    c ∈ foldl (λ (normalized : gset Clause) cl,
                 if has_both_signs (names_to_signs (elements (literals cl)))
                 then normalized else {[cl]} ∪ normalized) acc cls ↔
    c ∈ acc ∨ (c ∈ cls ∧ ¬ tautological c)).
  { induction cls as [|x cls IH]; intros acc; cbn [foldl].
    - rewrite elem_of_nil. tauto.
    - rewrite IH, elem_of_cons.
      destruct (has_both_signs _) eqn:E.
      + apply has_both_signs_tautological in E. naive_solver.
      + assert (¬ tautological x) by (rewrite <-has_both_signs_tautological; congruence).
        rewrite elem_of_union, elem_of_singleton. naive_solver. }
  rewrite Hgen. set_solver.
Qed.

Lemma refines_tautology_free F' F :
  refines F' F → tautology_free F → tautology_free F'.
Proof.
  intros Href Hfree c' Hc' (v & Hp & Hn).
  destruct (Href c' Hc') as (c & Hc & Hsub).
  apply (Hfree c Hc). exists v. set_solver.
Qed.

(** ** Pure literals *)

Lemma signs_of_undecided_fold lits (A : Assignment) d v b :
  b ∈ signs_of (foldl (λ d lit, match Literal_eval lit A with
                                | None => add_sign d lit
                                | Some _ => d
                                end) d lits) v ↔
  b ∈ signs_of d v ∨ (mkLiteral v b ∈ lits ∧ Literal_eval (mkLiteral v b) A = None).
Proof.
  revert d. induction lits as [|x lits IH]; intros d; cbn [foldl].
  - rewrite elem_of_nil. tauto.
  - rewrite IH, elem_of_cons. destruct (Literal_eval x A) eqn:E.
    + split; [tauto|]. intros [?|[[Heq|?] ?]]; [tauto| |tauto].
      subst x. congruence.
    + rewrite signs_of_add_sign. naive_solver.
Qed.

Lemma signs_of_collect_signs (A : Assignment) d cl v b :
  b ∈ signs_of (collect_signs A d cl) v ↔
  b ∈ signs_of d v ∨
  (Clause_evaluate cl A ≠ Some true ∧ mkLiteral v b ∈ literals cl ∧
   Literal_eval (mkLiteral v b) A = None).
Proof.
  unfold collect_signs.
  destruct (Clause_evaluate cl A) as [[]|] eqn:E;
    rewrite ?signs_of_undecided_fold, ?elem_of_elements; naive_solver.
Qed.

Lemma signs_of_sign_by_var F A v b :
  b ∈ signs_of (sign_by_var F A) v ↔ occurs_undecided F A (mkLiteral v b).
Proof.
  unfold sign_by_var, occurs_undecided.
  assert (Hgen : ∀ cls d,
    b ∈ signs_of (foldl (collect_signs A) d cls) v ↔
    b ∈ signs_of d v ∨
    ∃ c, c ∈ cls ∧ Clause_evaluate c A ≠ Some true ∧
         mkLiteral v b ∈ literals c ∧ Literal_eval (mkLiteral v b) A = None).
  { induction cls as [|x cls IH]; intros d; cbn [foldl].
    - setoid_rewrite elem_of_nil. naive_solver.
    - rewrite IH, signs_of_collect_signs. setoid_rewrite elem_of_cons.
      naive_solver. }
  rewrite Hgen. setoid_rewrite elem_of_elements.
  unfold signs_of. rewrite lookup_empty. set_solver.
Qed.

Lemma elem_of_add_pure_fold kvs acc l :
  l ∈ foldl add_pure acc kvs ↔
  l ∈ acc ∨ (name l, ({[negated l]} : gset bool)) ∈ kvs.
Proof.
  revert acc. induction kvs as [|[v s] kvs IH]; intros acc; cbn [foldl].
  - rewrite elem_of_nil. tauto.
  - rewrite IH, elem_of_cons. unfold add_pure. cbn [fst snd].
    destruct (decide (size s = 1)) as [Hsz|Hsz].
    + apply size_1_elem_of in Hsz as [x Hx]. apply leibniz_equiv in Hx. subst s.
      rewrite elements_singleton, elem_of_union, elem_of_singleton.
      destruct l as [n b]. cbn [name negated]. split.
      * intros [[[= -> ->]|?]|?]; tauto.
      * intros [?|[Heq|?]]; [tauto| |tauto].
        assert (n = v) as -> by exact (f_equal fst Heq).
        assert (({[b]} : gset bool) = {[x]}) as Hs by exact (f_equal snd Heq).
        assert (b ∈ ({[x]} : gset bool)) as Hb by (rewrite <-Hs; set_solver).
        apply elem_of_singleton in Hb as ->. tauto.
    + split; [tauto|]. intros [?|[Heq|?]]; [tauto| |tauto].
      assert (s = {[negated l]}) as -> by (symmetry; exact (f_equal snd Heq)).
      by rewrite size_singleton in Hsz.
Qed.

(** A literal is returned by [pure_literals] exactly when its polarity is the
    only one recorded for its variable. *)
Lemma elem_of_Formula_pure_literals_signs F A l :
  l ∈ Formula_pure_literals F A ↔
  signs_of (sign_by_var F A) (name l) = {[negated l]}.
Proof.
  unfold Formula_pure_literals. rewrite elem_of_add_pure_fold, elem_of_map_to_list.
  unfold signs_of. split.
  - intros [?| ->]; [set_solver|done].
  - intros H. right. destruct (sign_by_var F A !! name l) as [s|]; cbn in H.
    + by subst.
    + exfalso. assert (negated l ∈ (∅ : gset bool)) by (rewrite H; set_solver).
      set_solver.
Qed.

Lemma elem_of_Formula_pure_literals F A l :
  l ∈ Formula_pure_literals F A ↔
  occurs_undecided F A l ∧ ¬ occurs_undecided F A (negate l).
Proof.
  rewrite elem_of_Formula_pure_literals_signs. destruct l as [v b].
  unfold negate. cbn [name negated]. rewrite <-!signs_of_sign_by_var.
  set (s := signs_of (sign_by_var F A) v). split.
  - intros ->. split; [set_solver|]. destruct b; set_solver.
  - intros [Hin Hnot]. apply set_eq. intros x. rewrite elem_of_singleton. split.
    + intros Hx. destruct x, b; try done; by destruct Hnot.
    + by intros ->.
Qed.

(** Pure literals are undecided and lie on pairwise different variables. *)
Lemma Formula_pure_literals_undecided F A l :
  l ∈ Formula_pure_literals F A → A !! name l = None.
Proof.
  intros (( c & _ & _ & _ & H) & _)%elem_of_Formula_pure_literals.
  by apply Literal_eval_None.
Qed.

Lemma Formula_pure_literals_functional F A l1 l2 :
  l1 ∈ Formula_pure_literals F A → l2 ∈ Formula_pure_literals F A →
  name l1 = name l2 → l1 = l2.
Proof.
  rewrite !elem_of_Formula_pure_literals_signs. intros H1 H2 Hn.
  rewrite Hn in H1. rewrite H1 in H2.
  destruct l1 as [n1 b1], l2 as [n2 b2]. cbn [name negated] in *. subst.
  f_equal. apply (inj (singleton (B:=gset bool))) in H2. done.
Qed.

(** ** Reduction and satisfaction *)

(** A model of the reduced formula that agrees with the bindings used for
    the reduction is a model of the formula. *)
Lemma reduce_sound F (P : Assignment) F' (T : Assignment) :
  Formula_reduce F P = (F', false) → P ⊆ T → sat T F' → sat T F.
Proof.
  intros [_ Hin]%Formula_reduce_false HP Hsat c Hc.
  destruct (Clause_reduce c P) as [c'|] eqn:E.
  - assert (Hc' : c' ∈ clauses F') by (apply Hin; eauto).
    destruct (Hsat c' Hc') as (l & Hl & Ht).
    apply Clause_reduce_Some in E as [_ ->]. cbn [literals] in Hl.
    apply elem_of_undecided_literals in Hl as [Hl _]. by exists l.
  - apply Clause_reduce_None in E as (l & Hl & Ht).
    exists l. eauto using Literal_eval_mono.
Qed.

(** The literal that satisfies a clause survives any reduction under
    bindings the model agrees with. *)
Lemma sat_clause_undecided c (P T : Assignment) l :
  P ⊆ T → l ∈ literals c → Literal_eval l T = Some true →
  Literal_eval l P = Some true ∨ l ∈ undecided_literals c P.
Proof.
  intros HP Hl Ht. destruct (Literal_eval l P) as [[]|] eqn:E.
  - by left.
  - apply (Literal_eval_mono _ _ _ _ HP) in E. congruence.
  - right. by apply elem_of_undecided_literals.
Qed.

Lemma reduce_complete F (P T : Assignment) :
  P ⊆ T → sat T F →
  ∃ F', Formula_reduce F P = (F', false) ∧ sat T F'.
Proof.
  intros HP Hsat.
  assert (Hne : ¬ reduces_to_empty F P).
  { intros (c & Hc & Hred). destruct (Hsat c Hc) as (l & Hl & Ht).
    apply Clause_reduce_Some in Hred as [Hnt Heq].
    destruct (sat_clause_undecided c P T l HP Hl Ht) as [H|H].
    - by apply (Hnt l Hl).
    - assert (undecided_literals c P = ∅) as Hu by congruence. set_solver. }
  eexists. split; [by apply Formula_reduce_ok|].
  intros c'. cbn [clauses]. rewrite elem_of_set_omap. intros (c & Hc & Hred).
  destruct (Hsat c Hc) as (l & Hl & Ht).
  apply Clause_reduce_Some in Hred as [Hnt ->].
  destruct (sat_clause_undecided c P T l HP Hl Ht) as [H|H].
  - by destruct (Hnt l Hl).
  - by exists l.
Qed.

(** ** Binding a set of literals *)

Lemma bind_literals_mono lits (A B : Assignment) :
  A ⊆ B → bind_literals lits A ⊆ bind_literals lits B.
Proof.
  unfold bind_literals. revert A B.
  induction lits as [|x lits IH]; intros A B HAB; cbn [foldl]; [done|].
  apply IH. by apply insert_mono.
Qed.

Lemma bind_literals_lookup_notin lits (A : Assignment) v :
  (∀ l, l ∈ lits → name l ≠ v) → bind_literals lits A !! v = A !! v.
Proof.
  unfold bind_literals. revert A.
  induction lits as [|x lits IH]; intros A Hne; cbn [foldl]; [done|].
  rewrite IH by (intros l Hl; apply Hne; by right).
  apply lookup_insert_ne, Hne. left.
Qed.

Lemma bind_literals_lookup_in lits (A : Assignment) l :
  (∀ l1 l2, l1 ∈ lits → l2 ∈ lits → name l1 = name l2 → l1 = l2) →
  l ∈ lits → bind_literals lits A !! name l = Some (negb (negated l)).
Proof.
  unfold bind_literals. revert A.
  induction lits as [|x lits IH]; intros A Hfun Hl; cbn [foldl].
  - by apply not_elem_of_nil in Hl.
  - destruct (decide (l ∈ lits)) as [Hin|Hnotin].
    + apply IH; [|done]. intros l1 l2 ? ?. apply Hfun; by right.
    + apply elem_of_cons in Hl as [->|?]; [|done].
      fold (bind_literals lits (<[name x:=negb (negated x)]> A)).
      rewrite bind_literals_lookup_notin; [apply lookup_insert_eq|].
      intros l Hl Hname. apply Hnotin.
      rewrite <-(Hfun l x); [done|by right|left|done].
Qed.

Lemma bind_literals_dom lits (A : Assignment) v :
  v ∈ dom (bind_literals lits A) ↔ v ∈ dom A ∨ ∃ l, l ∈ lits ∧ name l = v.
Proof.
  unfold bind_literals. revert A.
  induction lits as [|x lits IH]; intros A; cbn [foldl].
  - setoid_rewrite elem_of_nil. naive_solver.
  - rewrite IH, dom_insert_L, elem_of_union, elem_of_singleton.
    setoid_rewrite elem_of_cons. naive_solver.
Qed.

Lemma bind_literals_extends lits (A : Assignment) :
  (∀ l, l ∈ lits → A !! name l = None) → A ⊆ bind_literals lits A.
Proof.
  intros Hfresh. apply map_subseteq_spec. intros v b Hv.
  rewrite bind_literals_lookup_notin; [done|].
  intros l Hl <-. rewrite Hfresh in Hv; done.
Qed.

(** ** The loop over the unit clauses *)

Lemma for_units_outcome units F A :
  (∃ r, for_units units F A = Ret r) ∨ for_units units F A = AssertionError.
Proof.
  revert F A. induction units as [|cl rest IH]; intros F A; cbn [for_units].
  - eauto.
  - destruct (find_target _ _) as [t|]; [|by right].
    destruct (Formula_reduce F _) as [F1 []]; [eauto|apply IH].
Qed.

Lemma for_units_spec units F A F' A' flag :
  for_units units F A = Ret (F', A', flag) →
  A ⊆ A' ∧ refines F' F ∧ size (clauses F') ≤ size (clauses F) ∧
  (flag = false → ∀ R : Assignment, A' ⊆ R → sat R F' → sat R F).
Proof.
  revert F A. induction units as [|cl rest IH]; intros F A; cbn [for_units].
  - intros [= <- <- <-]. repeat split; [done|apply refines_refl|lia|done].
  - destruct (find_target _ _) as [t|] eqn:Ht; [|done].
    apply find_target_Some in Ht as [_ Ht]. apply Literal_eval_None in Ht.
    pose proof (Formula_reduce_refines F {[name t := negb (negated t)]}) as Href.
    pose proof (Formula_reduce_size F {[name t := negb (negated t)]}) as Hsz.
    destruct (Formula_reduce F _) as [F1 fl] eqn:Hred. cbn [fst] in *.
    destruct fl.
    + intros [= <- <- <-]. repeat split; [by apply insert_subseteq|done..].
    + intros (HA & Href' & Hsz' & Hsound)%IH.
      split; [|split; [|split]].
      * etrans; [|done]. by apply insert_subseteq.
      * eauto using refines_trans.
      * lia.
      * intros Hf R HR Hsat. eapply reduce_sound; [done| |by apply Hsound].
        apply map_singleton_subseteq_l.
        eapply lookup_weaken; [|done]. eapply lookup_weaken; [|done].
        apply lookup_insert_eq.
Qed.

(** The first unit clause is dropped by its own binding, so the formula
    loses a clause. *)
Lemma for_units_size_lt cl rest F A F' A' flag :
  cl ∈ clauses F →
  for_units (cl :: rest) F A = Ret (F', A', flag) →
  size (clauses F') < size (clauses F).
Proof.
  intros Hcl. cbn [for_units].
  destruct (find_target _ _) as [t|] eqn:Ht; [|done].
  apply find_target_Some in Ht as [Hin _]. apply elem_of_elements in Hin.
  assert (Hdrop : Clause_reduce cl {[name t := negb (negated t)]} = None).
  { apply Clause_reduce_None. exists t. split; [done|].
    apply Literal_eval_true, lookup_singleton_eq. }
  pose proof (Formula_reduce_size_lt F _ cl Hcl Hdrop) as [_ Hlt].
  destruct (Formula_reduce F _) as [F1 fl] eqn:Hred. cbn [fst] in *.
  destruct fl.
  - by intros [= <- <- <-].
  - intros (_ & _ & Hsz & _)%for_units_spec. lia.
Qed.

(** ** Unit propagation *)

Lemma unit_propagation_spec fuel F A ch F' A' ch' ctr :
  unit_propagation fuel F A ch = Ret (F', A', ch', ctr) →
  A ⊆ A' ∧ refines F' F ∧ size (clauses F') ≤ size (clauses F) ∧
  (ch' = true → ch = true ∨ size (clauses F') < size (clauses F)) ∧
  (ctr = false → ∀ R : Assignment, A' ⊆ R → sat R F' → sat R F).
Proof.
  revert F A ch. induction fuel as [|fuel IH]; intros F A ch; cbn [unit_propagation];
    [done|].
  destruct (decide (Formula_unit_clauses F A = ∅)) as [Hnone|Hsome].
  - intros [= <- <- <- <-].
    repeat split; [done|apply refines_refl|lia|by left|done].
  - destruct (elements (Formula_unit_clauses F A)) as [|cl rest] eqn:Hel.
    { apply elements_empty_inv, leibniz_equiv in Hel. done. }
    assert (Hcl : cl ∈ clauses F).
    { eapply proj1, elem_of_Formula_unit_clauses, elem_of_elements.
      rewrite Hel. left. }
    destruct (for_units (cl :: rest) F A) as [[[f a] fl]| | |] eqn:Hfor; try done.
    pose proof (for_units_size_lt _ _ _ _ _ _ _ Hcl Hfor) as Hlt.
    apply for_units_spec in Hfor as (HA & Href & _ & Hsound).
    destruct fl.
    + intros [= <- <- <- <-]. repeat split; [done..|lia| |done].
      intros ->. by left.
    + intros (HA' & Href' & Hsz' & _ & Hsound')%IH.
      split; [by etrans|]. split; [eauto using refines_trans|].
      split; [lia|]. split; [intros _; right; lia|].
      intros Hc R HR Hsat. apply Hsound; [done|by etrans|]. by apply Hsound'.
Qed.

Lemma unit_propagation_outcome fuel F A ch :
  size (clauses F) < fuel →
  (∃ r, unit_propagation fuel F A ch = Ret r) ∨
  unit_propagation fuel F A ch = AssertionError.
Proof.
  revert F A ch. induction fuel as [|fuel IH]; intros F A ch Hfuel;
    cbn [unit_propagation]; [lia|].
  destruct (decide (Formula_unit_clauses F A = ∅)) as [Hnone|Hsome]; [eauto|].
  destruct (elements (Formula_unit_clauses F A)) as [|cl rest] eqn:Hel.
  { apply elements_empty_inv, leibniz_equiv in Hel. done. }
  assert (Hcl : cl ∈ clauses F).
  { eapply proj1, elem_of_Formula_unit_clauses, elem_of_elements.
    rewrite Hel. left. }
  destruct (for_units_outcome (cl :: rest) F A) as [[[[f a] fl] Hfor]|Hfor];
    rewrite Hfor; [|by right].
  pose proof (for_units_size_lt _ _ _ _ _ _ _ Hcl Hfor) as Hlt.
  destruct fl; [eauto|]. apply IH. lia.
Qed.

(** ** Pure-literal elimination *)

Lemma pure_literals_bound F A l :
  l ∈ Formula_pure_literals F A →
  bind_literals (elements (Formula_pure_literals F A)) ∅ !! name l
  = Some (negb (negated l)).
Proof.
  intros Hl. apply bind_literals_lookup_in; [|by apply elem_of_elements].
  intros l1 l2 H1%elem_of_elements H2%elem_of_elements.
  by apply (Formula_pure_literals_functional F A).
Qed.

Lemma pure_literal_elimination_spec F A ch F' A' ch' ctr :
  pure_literal_elimination F A ch = (F', A', ch', ctr) →
  A ⊆ A' ∧ refines F' F ∧ size (clauses F') ≤ size (clauses F) ∧
  (ch' = true → ch = true ∨ size (clauses F') < size (clauses F)) ∧
  (ctr = false → ∀ R : Assignment, A' ⊆ R → sat R F' → sat R F).
Proof.
  unfold pure_literal_elimination.
  destruct (decide (Formula_pure_literals F A = ∅)) as [Hnone|Hsome].
  - intros [= <- <- <- <-].
    repeat split; [done|apply refines_refl|lia|by left|done].
  - set (pures := elements (Formula_pure_literals F A)).
    assert (HA : A ⊆ bind_literals pures A).
    { apply bind_literals_extends. intros l Hl%elem_of_elements.
      by apply (Formula_pure_literals_undecided F). }
    assert (HP : bind_literals pures ∅ ⊆ bind_literals pures A).
    { apply bind_literals_mono, map_empty_subseteq. }
    pose proof (Formula_reduce_refines F (bind_literals pures ∅)) as Href.
    pose proof (Formula_reduce_size F (bind_literals pures ∅)) as Hsz.
    assert (Hlt : size (clauses (Formula_reduce F (bind_literals pures ∅)).1)
                  < size (clauses F)).
    { apply set_choose_L in Hsome as [p Hp].
      pose proof (pure_literals_bound F A p Hp) as Hb.
      apply elem_of_Formula_pure_literals in Hp as [(c & Hc & _ & Hpc & _) _].
      eapply (Formula_reduce_size_lt F _ c); [done|].
      apply Clause_reduce_None. exists p. split; [done|].
      by apply Literal_eval_true. }
    destruct (Formula_reduce F _) as [F1 fl] eqn:Hred. cbn [fst] in *.
    destruct fl; intros [= <- <- <- <-].
    + repeat split; [done..|lia| |done]. intros ->. by left.
    + repeat split; [done..|lia|intros _; right; lia|].
      intros _ R HR Hsat. eapply reduce_sound; [done| |done]. by etrans.
Qed.

(** ** [simplify] *)

Lemma simplify_loop_spec fuel F A F' A' ok :
  simplify_loop fuel F A = Ret (F', A', ok) →
  A ⊆ A' ∧ refines F' F ∧ size (clauses F') ≤ size (clauses F) ∧
  (ok = true → ∀ R : Assignment, A' ⊆ R → sat R F' → sat R F).
Proof.
  revert F A. induction fuel as [|fuel IH]; intros F A; cbn [simplify_loop];
    [done|].
  destruct (unit_propagation (S fuel) F A false) as [[[[f1 a1] ch1] ctr1]| | |] eqn:Hup;
    try done.
  apply unit_propagation_spec in Hup as (HA1 & Href1 & Hsz1 & _ & Hs1).
  destruct ctr1.
  { intros [= <- <- <-]. repeat split; done. }
  destruct (pure_literal_elimination f1 a1 ch1) as [[[f2 a2] ch2] ctr2] eqn:Hpl.
  apply pure_literal_elimination_spec in Hpl as (HA2 & Href2 & Hsz2 & _ & Hs2).
  assert (A ⊆ a2) by (by etrans).
  assert (refines f2 F) by eauto using refines_trans.
  assert (Hs12 : ctr2 = false → ∀ R : Assignment, a2 ⊆ R → sat R f2 → sat R F).
  { intros Hc R HR Hsat. apply Hs1; [done|by etrans|]. by apply Hs2. }
  destruct ctr2.
  { destruct ch2; intros [= <- <- <-]; repeat split; (done || lia). }
  destruct ch2.
  - intros (HA3 & Href3 & Hsz3 & Hs3)%IH.
    split; [by etrans|]. split; [eauto using refines_trans|]. split; [lia|].
    intros Hok R HR Hsat. apply Hs12; [done|by etrans|]. by apply Hs3.
  - intros [= <- <- <-]. repeat split; [done..|lia|]. intros _. by apply Hs12.
Qed.

Lemma simplify_loop_outcome fuel F A :
  size (clauses F) < fuel →
  (∃ r, simplify_loop fuel F A = Ret r) ∨ simplify_loop fuel F A = AssertionError.
Proof.
  revert F A. induction fuel as [|fuel IH]; intros F A Hfuel; cbn [simplify_loop];
    [lia|].
  destruct (unit_propagation_outcome (S fuel) F A false Hfuel)
    as [[[[[f1 a1] ch1] ctr1] Hup]|Hup]; rewrite Hup; [|by right].
  apply unit_propagation_spec in Hup as (_ & _ & Hsz1 & Hch1 & _).
  destruct ctr1; [eauto|].
  destruct (pure_literal_elimination f1 a1 ch1) as [[[f2 a2] ch2] ctr2] eqn:Hpl.
  apply pure_literal_elimination_spec in Hpl as (_ & _ & Hsz2 & Hch2 & _).
  destruct ctr2; [destruct ch2; eauto|]. destruct ch2; [|eauto].
  apply IH. destruct (Hch2 eq_refl) as [->|?]; [|lia].
  destruct (Hch1 eq_refl) as [?|?]; [done|lia].
Qed.

(** ** Undecided formulas and the branching variable *)

Lemma evaluate_clause_loop_None lits A u :
  evaluate_clause_loop lits A u = None →
  u = true ∨ ∃ l, l ∈ lits ∧ Literal_eval l A = None.
Proof.
  revert u. induction lits as [|x lits IH]; intros u; cbn [evaluate_clause_loop].
  - destruct u; [by left|done].
  - destruct (Literal_eval x A) as [[]|] eqn:E; [done| |].
    + intros [?|(l & ? & ?)]%IH; [by left|]. right. exists l. split; [by right|done].
    + intros _. right. exists x. split; [left|done].
Qed.

Lemma evaluate_formula_loop_None cls A u :
  evaluate_formula_loop cls A u = None →
  u = true ∨ ∃ c, c ∈ cls ∧ Clause_evaluate c A = None.
Proof.
  revert u. induction cls as [|x cls IH]; intros u; cbn [evaluate_formula_loop].
  - destruct u; [by left|done].
  - destruct (Clause_evaluate x A) as [[]|] eqn:E; [|done|].
    + intros [?|(l & ? & ?)]%IH; [by left|]. right. exists l. split; [by right|done].
    + intros _. right. exists x. split; [left|done].
Qed.

(** An undecided formula has a clause that is not true with an undecided
    literal. *)
Lemma Formula_evaluate_None F A :
  Formula_evaluate F A = None → ∃ l, occurs_undecided F A l.
Proof.
  intros [?|(c & Hc%elem_of_elements & Hev)]%evaluate_formula_loop_None; [done|].
  pose proof Hev as [?|(l & Hl%elem_of_elements & Hu)]%evaluate_clause_loop_None;
    [done|].
  exists l, c. repeat split; [done|congruence|done..].
Qed.

Lemma dom_count_literals_fold lits (A : Assignment) (d : gmap string nat) v :
  v ∈ dom (foldl (λ (d : gmap string nat) lit,
                    match Literal_eval lit A with
                    | None => <[name lit := default 0 (d !! name lit) + 1]> d
                    | Some _ => d
                    end) d lits) ↔
  v ∈ dom d ∨ ∃ l, l ∈ lits ∧ name l = v ∧ Literal_eval l A = None.
Proof.
  revert d. induction lits as [|x lits IH]; intros d; cbn [foldl].
  - setoid_rewrite elem_of_nil. naive_solver.
  - rewrite IH. setoid_rewrite elem_of_cons. destruct (Literal_eval x A) eqn:E.
    + split; [naive_solver|]. intros [?|(l & [->|?] & ? & ?)]; [by left|congruence|].
      right. by exists l.
    + rewrite dom_insert_L, elem_of_union, elem_of_singleton. naive_solver.
Qed.

Lemma elem_of_dom_occurrence_counts F A v :
  v ∈ dom (occurrence_counts F A) ↔ ∃ l, name l = v ∧ occurs_undecided F A l.
Proof.
  unfold occurrence_counts, occurs_undecided.
  assert (Hgen : ∀ cls (d : gmap string nat),
    v ∈ dom (foldl (count_clause A) d cls) ↔
    v ∈ dom d ∨
    ∃ l c, name l = v ∧ c ∈ cls ∧ Clause_evaluate c A ≠ Some true ∧
           l ∈ literals c ∧ Literal_eval l A = None).
  { induction cls as [|x cls IH]; intros d; cbn [foldl].
    - setoid_rewrite elem_of_nil. naive_solver.
    - rewrite IH. setoid_rewrite elem_of_cons. unfold count_clause.
      destruct (Clause_evaluate x A) as [[]|] eqn:E;
        rewrite ?dom_count_literals_fold; repeat setoid_rewrite elem_of_elements.
      + split; [naive_solver|].
        intros [?|(l & c & ? & [->|?] & ? & ?)]; [by left|done|].
        right. exists l, c. done.
      + split.
        * intros [[?|(l & ? & ? & ?)]|(l & c & ?)]; [by left|right..].
          -- exists l, x. rewrite E. naive_solver.
          -- exists l, c. naive_solver.
        * intros [?|(l & c & ? & [->|?] & ? & ? & ?)]; [by left; left| |].
          -- left. right. by exists l.
          -- right. exists l, c. done.
      + split.
        * intros [[?|(l & ? & ? & ?)]|(l & c & ?)]; [by left|right..].
          -- exists l, x. rewrite E. naive_solver.
          -- exists l, c. naive_solver.
        * intros [?|(l & c & ? & [->|?] & ? & ? & ?)]; [by left; left| |].
          -- left. right. by exists l.
          -- right. exists l, c. done. }
  rewrite Hgen, dom_empty_L. setoid_rewrite elem_of_elements. set_solver.
Qed.

Lemma max_by_count_fold items best kv :
  foldl keep_max best items = Some kv → best = Some kv ∨ kv ∈ items.
Proof.
  revert best. induction items as [|x items IH]; intros best; cbn [foldl].
  - by left.
  - intros [Hb|?]%IH; [|right; by right]. unfold keep_max in Hb.
    destruct best as [b|]; [|injection Hb as ->; right; left].
    case_bool_decide; injection Hb as ->; [right; left|by left].
Qed.

Lemma max_by_count_Some items kv : max_by_count items = Some kv → kv ∈ items.
Proof. by intros [?|?]%max_by_count_fold. Qed.

Lemma max_by_count_None items : max_by_count items = None → items = [].
Proof.
  unfold max_by_count. destruct items as [|x items]; [done|]. cbn [foldl].
  assert (Hgen : ∀ (l : list (string * nat)) b,
    foldl keep_max (Some b) l ≠ None).
  { induction l as [|y l IH]; intros b; cbn [foldl keep_max]; [done|].
    case_bool_decide; apply IH. }
  intros H. by destruct (Hgen items x).
Qed.

(** The branching variable occurs in the formula and is unbound. *)
Lemma choose_variable_spec F A v :
  choose_variable F A = Ret v → v ∈ Formula_variables F ∧ A !! v = None.
Proof.
  unfold choose_variable.
  destruct (max_by_count _) as [[k n]|] eqn:Hmax.
  - intros [= <-]. cbn [fst].
    apply max_by_count_Some, elem_of_map_to_list in Hmax.
    assert (Hk : k ∈ dom (occurrence_counts F A)) by (apply elem_of_dom; eauto).
    apply elem_of_dom_occurrence_counts in Hk as (l & <- & c & Hc & _ & Hl & Hu).
    split; [|by apply Literal_eval_None].
    apply elem_of_Formula_variables. by exists c, l.
  - destruct (elements _) as [|x rest] eqn:Hel; [done|]. intros [= <-].
    assert (Hx : x ∈ Formula_variables F ∖ dom A).
    { apply elem_of_elements. rewrite Hel. left. }
    apply elem_of_difference in Hx as [? ?]. split; [done|].
    by apply not_elem_of_dom.
Qed.

Lemma choose_variable_outcome F A :
  Formula_evaluate F A = None → ∃ v, choose_variable F A = Ret v.
Proof.
  intros [l Hocc]%Formula_evaluate_None. unfold choose_variable.
  destruct (max_by_count _) as [[k n]|] eqn:Hmax; [eauto|].
  apply max_by_count_None, map_to_list_empty_iff in Hmax.
  assert (Hl : name l ∈ dom (occurrence_counts F A))
    by (apply elem_of_dom_occurrence_counts; eauto).
  rewrite Hmax, dom_empty_L in Hl. set_solver.
Qed.

(** ** Completing the assignment *)

Lemma totalize_extends F (A : Assignment) : A ⊆ totalize F A.
Proof.
  unfold totalize. generalize (elements (Formula_variables F)). intros vs.
  assert (Hgen : ∀ B : Assignment, A ⊆ B →
    A ⊆ foldl (λ (total : Assignment) v,
                 match total !! v with
                 | None => <[v := false]> total
                 | Some _ => total
                 end) B vs).
  { induction vs as [|v vs IH]; intros B HB; cbn [foldl]; [done|].
    apply IH. destruct (B !! v) eqn:E; [done|].
    etrans; [done|]. by apply insert_subseteq. }
  by apply Hgen.
Qed.

(** ** The loop over the two truth values *)

Lemma for_choices_Some rec choices F A v R :
  for_choices rec choices F A v = Ret (Some R) →
  ∃ b F1, b ∈ choices ∧ Formula_reduce F {[v := b]} = (F1, false) ∧
          rec F1 (<[v := b]> A) = Ret (Some R).
Proof.
  induction choices as [|b rest IH]; cbn [for_choices]; [done|].
  destruct (Formula_reduce F {[v := b]}) as [F1 fl] eqn:Hred.
  destruct fl.
  - intros (b' & F' & ? & ? & ?)%IH. exists b', F'. split; [by right|done].
  - destruct (rec F1 _) as [[R'|]| | |] eqn:Hrec; try done.
    + intros [= ->]. exists b, F1. split; [left|done].
    + intros (b' & F' & ? & ? & ?)%IH. exists b', F'. split; [by right|done].
Qed.

Lemma for_choices_None rec choices F A v b F1 :
  for_choices rec choices F A v = Ret None →
  b ∈ choices → Formula_reduce F {[v := b]} = (F1, false) →
  rec F1 (<[v := b]> A) = Ret None.
Proof.
  induction choices as [|b' rest IH]; cbn [for_choices].
  - intros _ Hb. by apply not_elem_of_nil in Hb.
  - intros Hfor Hb Hred.
    destruct (Formula_reduce F {[v := b']}) as [F1' fl] eqn:Hred'.
    apply elem_of_cons in Hb as [->|Hb].
    + rewrite Hred in Hred'. injection Hred' as <- <-.
      by destruct (rec F1 _) as [[R'|]| | |].
    + destruct fl; [by apply IH|].
      destruct (rec F1' _) as [[R'|]| | |]; try done. by apply IH.
Qed.

Lemma for_choices_outcome rec choices F A v :
  (∀ b F1, Formula_reduce F {[v := b]} = (F1, false) →
           ∃ r, rec F1 (<[v := b]> A) = Ret r) →
  ∃ r, for_choices rec choices F A v = Ret r.
Proof.
  intros Hrec. induction choices as [|b rest IH]; cbn [for_choices]; [eauto|].
  destruct (Formula_reduce F {[v := b]}) as [F1 fl] eqn:Hred.
  destruct fl; [done|].
  destruct (Hrec b F1 Hred) as [[R|] ->]; eauto.
Qed.

(** ** Soundness of the search *)

Lemma dpll_sound depth fuel F A R :
  dpll depth fuel F A = Ret (Some R) → A ⊆ R ∧ sat R F.
Proof.
  revert F A. induction depth as [|depth IH]; intros F A; cbn [dpll]; [done|].
  unfold simplify.
  destruct (simplify_loop fuel F A) as [[[F' A'] ok]| | |] eqn:Hsimp; try done.
  apply simplify_loop_spec in Hsimp as (HA & _ & _ & Hsound).
  destruct ok; cbn [negb]; [|done]. specialize (Hsound eq_refl).
  destruct (Formula_evaluate F' A') as [[]|] eqn:Hev; [|done|].
  - intros [= <-]. pose proof (totalize_extends F' A') as Hext.
    split; [by etrans|]. apply Hsound; [done|].
    eapply sat_mono; [done|]. by apply Formula_evaluate_true.
  - destruct (choose_variable F' A') as [v| | |] eqn:Hvar; try done.
    apply choose_variable_spec in Hvar as [_ Hfresh].
    intros (b & F1 & _ & Hred & [HA1 Hsat]%IH)%for_choices_Some.
    assert (A' ⊆ R) by (etrans; [by apply insert_subseteq|done]).
    split; [by etrans|]. apply Hsound; [done|].
    eapply reduce_sound; [done| |done].
    apply map_singleton_subseteq_l.
    eapply lookup_weaken; [apply lookup_insert_eq|exact HA1].
Qed.

(** ** Completeness of the search *)

Lemma almost_false_mono cl (A A' : Assignment) :
  A ⊆ A' → almost_false cl A → almost_false cl A'.
Proof.
  intros HA Hcl l1 l2 H1 H2 Hn1 Hn2. apply Hcl; [done..| |];
    intros Hf; apply (Literal_eval_mono _ _ _ _ HA) in Hf; done.
Qed.

Lemma Clause_is_unit_almost_false cl A :
  Clause_is_unit cl A = true → almost_false cl A.
Proof.
  intros [Hnt (u & _ & _ & Huniq)]%Clause_is_unit_true l1 l2 H1 H2 Hn1 Hn2.
  assert (Hund : ∀ l, l ∈ literals cl → Literal_eval l A ≠ Some false →
                      Literal_eval l A = None).
  { intros l Hl Hnf. specialize (Hnt l Hl).
    by destruct (Literal_eval l A) as [[]|]. }
  rewrite (Huniq l1), (Huniq l2); auto.
Qed.

Lemma for_units_complete units F A (T : Assignment) F' A' flag :
  A ⊆ T → sat T F →
  (∀ cl, cl ∈ units → sat_clause T cl ∧ almost_false cl A) →
  for_units units F A = Ret (F', A', flag) →
  flag = false ∧ A' ⊆ T ∧ sat T F'.
Proof.
  revert F A. induction units as [|cl rest IH]; intros F A HA Hsat Hunits;
    cbn [for_units].
  - by intros [= <- <- <-].
  - destruct (find_target _ _) as [t|] eqn:Ht; [|done].
    apply find_target_Some in Ht as [Hin%elem_of_elements Hu].
    destruct (Hunits cl (list_elem_of_here _ _)) as [(l & Hl & Hlt) Haf].
    assert (l = t) as ->.
    { apply Haf; [done..| |congruence].
      intros Hf. apply (Literal_eval_mono _ _ _ _ HA) in Hf. congruence. }
    apply Literal_eval_true in Hlt.
    assert (HP : ({[name t := negb (negated t)]} : Assignment) ⊆ T)
      by (by apply map_singleton_subseteq_l).
    destruct (reduce_complete F _ T HP Hsat) as (F1 & -> & Hsat1).
    assert (HA1 : <[name t := negb (negated t)]> A ⊆ T)
      by (by apply insert_subseteq_l).
    apply IH; [done..|].
    intros cl' Hcl'. destruct (Hunits cl') as [? ?]; [by right|].
    split; [done|]. eapply almost_false_mono; [|done].
    apply insert_subseteq. by apply Literal_eval_None.
Qed.

Lemma unit_propagation_complete fuel F A ch (T : Assignment) F' A' ch' ctr :
  A ⊆ T → sat T F →
  unit_propagation fuel F A ch = Ret (F', A', ch', ctr) →
  ctr = false ∧ A' ⊆ T ∧ sat T F'.
Proof.
  revert F A ch. induction fuel as [|fuel IH]; intros F A ch HA Hsat;
    cbn [unit_propagation]; [done|].
  destruct (decide (Formula_unit_clauses F A = ∅)) as [Hnone|Hsome].
  - by intros [= <- <- <- <-].
  - destruct (for_units _ F A) as [[[f a] fl]| | |] eqn:Hfor; try done.
    apply (for_units_complete _ _ _ T) in Hfor as (-> & Ha & Hf); [by eapply IH|done..|].
    intros cl [Hcl Hunit]%elem_of_elements%elem_of_Formula_unit_clauses.
    split; [by apply Hsat|by apply Clause_is_unit_almost_false].
Qed.

(** Forcing the pure literals of a model keeps it a model. *)
Lemma pure_literals_model F A (T : Assignment) :
  A ⊆ T → sat T F →
  sat (bind_literals (elements (Formula_pure_literals F A)) T) F.
Proof.
  intros HA Hsat c Hc.
  set (pures := elements (Formula_pure_literals F A)).
  assert (HT : A ⊆ bind_literals pures T).
  { etrans; [|by apply bind_literals_mono].
    apply bind_literals_extends. intros l Hl%elem_of_elements.
    by apply (Formula_pure_literals_undecided F). }
  destruct (decide (Clause_evaluate c A = Some true)) as [Htrue|Hnot].
  { apply Clause_evaluate_true in Htrue as (l & Hl & Ht).
    exists l. eauto using Literal_eval_mono. }
  destruct (Hsat c Hc) as (l & Hl & Ht). exists l. split; [done|].
  destruct (decide (Exists (λ p, name p = name l) pures)) as [Hex|Hnex].
  - apply Exists_exists in Hex as (p & Hp & Hname).
    pose proof Hp as Hp'%elem_of_elements.
    pose proof (Formula_pure_literals_undecided F A p Hp') as Hund.
    assert (Hocc : occurs_undecided F A l).
    { exists c. repeat split; [done..|]. apply Literal_eval_None. by rewrite <-Hname. }
    apply elem_of_Formula_pure_literals in Hp' as [_ Hneg].
    assert (l = p) as ->.
    { destruct l as [n b], p as [n' b']. cbn [name] in Hname. subst n'.
      destruct (decide (b = b')) as [->|Hb]; [done|].
      destruct Hneg. unfold negate. cbn [name negated].
      replace (negb b') with b by (by destruct b, b'). done. }
    apply Literal_eval_true, bind_literals_lookup_in; [|done].
    intros l1 l2 H1%elem_of_elements H2%elem_of_elements.
    by apply (Formula_pure_literals_functional F A).
  - unfold Literal_eval in *. rewrite bind_literals_lookup_notin; [done|].
    intros p Hp Hname. apply Hnex, Exists_exists. eauto.
Qed.

Lemma pure_literal_elimination_complete F A ch F' A' ch' ctr :
  satisfiable_from A F →
  pure_literal_elimination F A ch = (F', A', ch', ctr) →
  ctr = false ∧ satisfiable_from A' F'.
Proof.
  intros (T & HA & Hsat). unfold pure_literal_elimination.
  destruct (decide (Formula_pure_literals F A = ∅)) as [Hnone|Hsome].
  - intros [= <- <- <- <-]. split; [done|]. by exists T.
  - set (pures := elements (Formula_pure_literals F A)).
    pose proof (pure_literals_model F A T HA Hsat) as Hsat'. fold pures in Hsat'.
    assert (HP : bind_literals pures ∅ ⊆ bind_literals pures T)
      by apply bind_literals_mono, map_empty_subseteq.
    destruct (reduce_complete F _ _ HP Hsat') as (F1 & -> & Hsat1).
    intros [= <- <- <- <-]. split; [done|].
    exists (bind_literals pures T). split; [by apply bind_literals_mono|done].
Qed.

Lemma simplify_loop_complete fuel F A F' A' ok :
  satisfiable_from A F →
  simplify_loop fuel F A = Ret (F', A', ok) →
  ok = true ∧ satisfiable_from A' F'.
Proof.
  revert F A. induction fuel as [|fuel IH]; intros F A Hsat; cbn [simplify_loop];
    [done|].
  destruct (unit_propagation (S fuel) F A false) as [[[[f1 a1] ch1] ctr1]| | |] eqn:Hup;
    try done.
  destruct Hsat as (T & HA & Hsat).
  apply (unit_propagation_complete _ _ _ _ T) in Hup as (-> & HA1 & Hsat1); [|done..].
  destruct (pure_literal_elimination f1 a1 ch1) as [[[f2 a2] ch2] ctr2] eqn:Hpl.
  apply pure_literal_elimination_complete in Hpl as [-> Hsat2]; [|by exists T].
  destruct ch2; [by apply IH|]. by intros [= <- <- <-].
Qed.

Lemma dpll_complete depth fuel F A :
  dpll depth fuel F A = Ret None → ¬ satisfiable_from A F.
Proof.
  revert F A. induction depth as [|depth IH]; intros F A; cbn [dpll]; [done|].
  unfold simplify. intros Hres Hsat.
  destruct (simplify_loop fuel F A) as [[[F' A'] ok]| | |] eqn:Hsimp; try done.
  apply simplify_loop_complete in Hsimp as [-> (T & HA & HT)]; [|done].
  cbn [negb] in Hres.
  destruct (Formula_evaluate F' A') as [[]|] eqn:Hev; [done| |].
  - apply Formula_evaluate_false in Hev as (c & Hc & Hfalse).
    destruct (HT c Hc) as (l & Hl & Ht).
    pose proof (Literal_eval_mono _ _ _ _ HA (Hfalse l Hl)). congruence.
  - destruct (choose_variable F' A') as [v| | |] eqn:Hvar; try done.
    set (b := default true (T !! v)).
    assert (HTb : T ⊆ <[v := b]> T).
    { unfold b. destruct (T !! v) as [x|] eqn:E; cbn [default from_option id].
      - by rewrite insert_id.
      - by apply insert_subseteq. }
    assert (HP : ({[v := b]} : Assignment) ⊆ <[v := b]> T)
      by apply map_singleton_subseteq_l, lookup_insert_eq.
    destruct (reduce_complete F' _ _ HP (sat_mono _ _ _ HTb HT)) as (F1 & Hred & Hsat1).
    assert (Hb : b ∈ [true; false]) by (destruct b; set_solver).
    pose proof (for_choices_None _ _ _ _ _ b F1 Hres Hb Hred) as Hrec.
    apply (IH _ _ Hrec). exists (<[v := b]> T). split; [by apply insert_mono|done].
Qed.

(** ** The working state of the solver *)

Lemma disjoint_state_empty F : disjoint_state F ∅.
Proof. unfold disjoint_state. rewrite dom_empty_L. set_solver. Qed.

Lemma disjoint_state_undecided F A c l :
  disjoint_state F A → c ∈ clauses F → l ∈ literals c → Literal_eval l A = None.
Proof.
  intros Hdis Hc Hl. apply Literal_eval_None, not_elem_of_dom.
  intros Hin. apply (Hdis (name l)); [|done].
  apply elem_of_Formula_variables. by exists c, l.
Qed.

Lemma reduce_disjoint_state F A v b :
  disjoint_state F A →
  disjoint_state (Formula_reduce F {[v := b]}).1 (<[v := b]> A).
Proof.
  unfold disjoint_state. intros Hdis.
  pose proof (Formula_reduce_variables F {[v := b]}) as Hsub.
  rewrite dom_singleton_L in Hsub. rewrite dom_insert_L. set_solver.
Qed.

Lemma for_units_disjoint_state units F A F' A' flag :
  disjoint_state F A →
  for_units units F A = Ret (F', A', flag) → disjoint_state F' A'.
Proof.
  revert F A. induction units as [|cl rest IH]; intros F A Hdis; cbn [for_units].
  - by intros [= <- <- <-].
  - destruct (find_target _ _) as [t|]; [|done].
    pose proof (reduce_disjoint_state F A (name t) (negb (negated t)) Hdis) as Hdis1.
    destruct (Formula_reduce F _) as [F1 fl]. cbn [fst] in Hdis1.
    destruct fl; [by intros [= <- <- <-]|by apply IH].
Qed.

(** A clause with the single literal [u2] is untouched by a binding of
    another variable, and becomes empty or is dropped otherwise. *)
Lemma Clause_reduce_singleton (u2 : Literal) v b :
  name u2 ≠ v →
  Clause_reduce (mkClause {[u2]}) {[v := b]} = Some (mkClause {[u2]}).
Proof.
  intros Hne.
  assert (Hu : Literal_eval u2 ({[v := b]} : Assignment) = None).
  { apply Literal_eval_None. by apply lookup_singleton_ne. }
  apply Clause_reduce_Some. split.
  - cbn [literals]. intros l ->%elem_of_singleton. congruence.
  - f_equal. apply set_eq. intros l. rewrite elem_of_undecided_literals.
    cbn [literals]. rewrite elem_of_singleton. naive_solver.
Qed.

Lemma Clause_reduce_singleton_negated (u : Literal) :
  Clause_reduce (mkClause {[negate u]}) {[name u := negb (negated u)]}
  = Some (mkClause ∅).
Proof.
  assert (Hu : Literal_eval (negate u) ({[name u := negb (negated u)]} : Assignment)
               = Some false).
  { apply Literal_eval_false. unfold negate. cbn [name negated].
    apply lookup_singleton_eq. }
  apply Clause_reduce_Some. split.
  - cbn [literals]. intros l ->%elem_of_singleton. congruence.
  - f_equal. apply set_eq. intros l. rewrite elem_of_undecided_literals.
    cbn [literals]. rewrite elem_of_singleton. split; [set_solver|].
    intros [-> ?]. congruence.
Qed.

Lemma same_name_cases (l1 l2 : Literal) :
  name l1 = name l2 → l1 = l2 ∨ l1 = negate l2.
Proof.
  destruct l1 as [n1 b1], l2 as [n2 b2]. unfold negate. cbn [name negated].
  intros ->. destruct b1, b2; auto.
Qed.

(** In a working state, the stale list of unit clauses stays usable: every
    clause still to be processed is a one-literal clause of the current
    formula. *)
Lemma for_units_no_assertion units F A :
  disjoint_state F A → NoDup units →
  (∀ cl, cl ∈ units → cl ∈ clauses F ∧ ∃ u, literals cl = {[u]}) →
  for_units units F A ≠ AssertionError.
Proof.
  revert F A. induction units as [|cl rest IH]; intros F A Hdis Hnd Hunits;
    cbn [for_units]; [done|].
  destruct (Hunits cl (list_elem_of_here _ _)) as [Hcl [u Hu]].
  apply NoDup_cons in Hnd as [Hnotin Hnd].
  rewrite Hu, elements_singleton. cbn [find_target].
  rewrite (disjoint_state_undecided F A cl u) by (done || set_solver).
  pose proof (reduce_disjoint_state F A (name u) (negb (negated u)) Hdis) as Hdis1.
  destruct (Formula_reduce F _) as [F1 fl] eqn:Hred. cbn [fst] in Hdis1.
  destruct fl; [done|].
  apply Formula_reduce_false in Hred as [Hne Hin].
  apply IH; [done..|].
  intros cl2 Hcl2. destruct (Hunits cl2) as [HclF [u2 Hu2]]; [by right|].
  split; [|eauto]. apply Hin. exists cl2. split; [done|].
  destruct cl2 as [s2]. cbn [literals] in Hu2. subst s2.
  destruct (decide (name u2 = name u)) as [Hname|Hname].
  - exfalso. apply same_name_cases in Hname as [->| ->].
    + apply Hnotin. destruct cl as [s]. cbn [literals] in Hu. by subst s.
    + apply Hne. eexists. split; [done|]. apply Clause_reduce_singleton_negated.
  - by apply Clause_reduce_singleton.
Qed.

Lemma unit_clauses_singleton F A cl :
  disjoint_state F A → cl ∈ Formula_unit_clauses F A →
  cl ∈ clauses F ∧ ∃ u, literals cl = {[u]}.
Proof.
  intros Hdis [Hcl Hunit]%elem_of_Formula_unit_clauses. split; [done|].
  apply Clause_is_unit_true in Hunit as (_ & u & Hu & _ & Huniq).
  exists u. apply set_eq. intros l. rewrite elem_of_singleton. split.
  - intros Hl. apply Huniq; [done|]. by eapply disjoint_state_undecided.
  - by intros ->.
Qed.

Lemma unit_propagation_disjoint_state fuel F A ch F' A' ch' ctr :
  disjoint_state F A →
  unit_propagation fuel F A ch = Ret (F', A', ch', ctr) → disjoint_state F' A'.
Proof.
  revert F A ch. induction fuel as [|fuel IH]; intros F A ch Hdis;
    cbn [unit_propagation]; [done|].
  destruct (decide (Formula_unit_clauses F A = ∅)); [by intros [= <- <- <- <-]|].
  destruct (for_units _ F A) as [[[f a] fl]| | |] eqn:Hfor; try done.
  apply for_units_disjoint_state in Hfor; [|done].
  destruct fl; [by intros [= <- <- <- <-]|by eapply IH].
Qed.

Lemma unit_propagation_no_assertion fuel F A ch :
  disjoint_state F A → unit_propagation fuel F A ch ≠ AssertionError.
Proof.
  revert F A ch. induction fuel as [|fuel IH]; intros F A ch Hdis;
    cbn [unit_propagation]; [done|].
  destruct (decide (Formula_unit_clauses F A = ∅)); [done|].
  pose proof (for_units_no_assertion (elements (Formula_unit_clauses F A)) F A Hdis
                (NoDup_elements _)) as Hna.
  destruct (for_units _ F A) as [[[f a] fl]| | |] eqn:Hfor; try done.
  - apply for_units_disjoint_state in Hfor; [|done].
    destruct fl; [done|by apply IH].
  - exfalso. apply Hna; [|done].
    intros cl Hcl%elem_of_elements. by apply (unit_clauses_singleton F A).
Qed.

Lemma pure_literal_elimination_disjoint_state F A ch F' A' ch' ctr :
  disjoint_state F A →
  pure_literal_elimination F A ch = (F', A', ch', ctr) → disjoint_state F' A'.
Proof.
  unfold pure_literal_elimination. intros Hdis.
  destruct (decide (Formula_pure_literals F A = ∅)); [by intros [= <- <- <- <-]|].
  set (pures := elements (Formula_pure_literals F A)).
  assert (Hdis' : disjoint_state (Formula_reduce F (bind_literals pures ∅)).1
                                 (bind_literals pures A)).
  { pose proof (Formula_reduce_variables F (bind_literals pures ∅)) as Hsub.
    intros v Hv Hin. apply Hsub in Hv. apply elem_of_difference in Hv as [HvF Hnp].
    apply bind_literals_dom in Hin as [Hin|Hin]; [by apply (Hdis v)|].
    apply Hnp, bind_literals_dom. by right. }
  destruct (Formula_reduce F _) as [F1 fl]. cbn [fst] in Hdis'.
  by destruct fl; intros [= <- <- <- <-].
Qed.

Lemma simplify_loop_disjoint_state fuel F A F' A' ok :
  disjoint_state F A →
  simplify_loop fuel F A = Ret (F', A', ok) → disjoint_state F' A'.
Proof.
  revert F A. induction fuel as [|fuel IH]; intros F A Hdis; cbn [simplify_loop];
    [done|].
  destruct (unit_propagation (S fuel) F A false) as [[[[f1 a1] ch1] ctr1]| | |] eqn:Hup;
    try done.
  apply unit_propagation_disjoint_state in Hup; [|done].
  destruct ctr1; [by intros [= <- <- <-]|].
  destruct (pure_literal_elimination f1 a1 ch1) as [[[f2 a2] ch2] ctr2] eqn:Hpl.
  apply pure_literal_elimination_disjoint_state in Hpl; [|done].
  destruct ctr2; [by destruct ch2; intros [= <- <- <-]|].
  destruct ch2; [by apply IH|by intros [= <- <- <-]].
Qed.

Lemma simplify_loop_no_assertion fuel F A :
  disjoint_state F A → simplify_loop fuel F A ≠ AssertionError.
Proof.
  revert F A. induction fuel as [|fuel IH]; intros F A Hdis; cbn [simplify_loop];
    [done|].
  pose proof (unit_propagation_no_assertion (S fuel) F A false Hdis) as Hna.
  destruct (unit_propagation (S fuel) F A false) as [[[[f1 a1] ch1] ctr1]| | |] eqn:Hup;
    try done.
  apply unit_propagation_disjoint_state in Hup; [|done].
  destruct ctr1; [done|].
  destruct (pure_literal_elimination f1 a1 ch1) as [[[f2 a2] ch2] ctr2] eqn:Hpl.
  apply pure_literal_elimination_disjoint_state in Hpl; [|done].
  destruct ctr2; [by destruct ch2|]. destruct ch2; [by apply IH|done].
Qed.

Lemma for_choices_no_assertion rec choices F A v :
  (∀ b F1, Formula_reduce F {[v := b]} = (F1, false) →
           rec F1 (<[v := b]> A) ≠ AssertionError) →
  for_choices rec choices F A v ≠ AssertionError.
Proof.
  intros Hrec. induction choices as [|b rest IH]; cbn [for_choices]; [done|].
  destruct (Formula_reduce F {[v := b]}) as [F1 fl] eqn:Hred.
  destruct fl; [done|].
  pose proof (Hrec b F1 Hred) as Hna.
  by destruct (rec F1 _) as [[R|]| | |].
Qed.

Lemma dpll_no_assertion depth fuel F A :
  disjoint_state F A → dpll depth fuel F A ≠ AssertionError.
Proof.
  revert F A. induction depth as [|depth IH]; intros F A Hdis; cbn [dpll]; [done|].
  unfold simplify.
  pose proof (simplify_loop_no_assertion fuel F A Hdis) as Hna.
  destruct (simplify_loop fuel F A) as [[[F' A'] ok]| | |] eqn:Hsimp; try done.
  apply simplify_loop_disjoint_state in Hsimp; [|done].
  destruct ok; cbn [negb]; [|done].
  destruct (Formula_evaluate F' A') as [[]|] eqn:Hev; [done..|].
  destruct (choose_variable_outcome F' A' Hev) as [v ->].
  apply for_choices_no_assertion. intros b F1 Hred. apply IH.
  pose proof (reduce_disjoint_state F' A' v b Hsimp) as Hd. by rewrite Hred in Hd.
Qed.

(** ** Termination of the search *)

Lemma dpll_outcome depth fuel F A :
  disjoint_state F A →
  size (Formula_variables F) < depth → size (clauses F) < fuel →
  ∃ r, dpll depth fuel F A = Ret r.
Proof.
  revert F A. induction depth as [|depth IH]; intros F A Hdis Hdepth Hfuel;
    cbn [dpll]; [lia|].
  unfold simplify.
  pose proof (simplify_loop_no_assertion fuel F A Hdis) as Hna.
  destruct (simplify_loop_outcome fuel F A) as [[[[F' A'] ok] Hsimp]|?];
    [lia| |done].
  rewrite Hsimp.
  pose proof (simplify_loop_disjoint_state _ _ _ _ _ _ Hdis Hsimp) as Hdis'.
  apply simplify_loop_spec in Hsimp as (_ & Href & Hsz & _).
  destruct ok; cbn [negb]; [|eauto].
  destruct (Formula_evaluate F' A') as [[]|] eqn:Hev; [eauto..|].
  destruct (choose_variable_outcome F' A' Hev) as [v Hvar]. rewrite Hvar.
  apply choose_variable_spec in Hvar as [Hv _].
  apply for_choices_outcome. intros b F1 Hred.
  pose proof (Formula_reduce_size F' {[v := b]}) as Hsz1.
  pose proof (Formula_reduce_variables F' {[v := b]}) as Hvars.
  rewrite Hred in Hsz1, Hvars. cbn [fst] in Hsz1, Hvars.
  rewrite dom_singleton_L in Hvars.
  apply IH.
  - pose proof (reduce_disjoint_state F' A' v b Hdis') as Hd. by rewrite Hred in Hd.
  - assert (size (Formula_variables F1) < size (Formula_variables F')).
    { apply subset_size. set_solver. }
    assert (size (Formula_variables F') ≤ size (Formula_variables F)).
    { apply subseteq_size. by apply refines_variables. }
    lia.
  - lia.
Qed.

(** When the simplified formula evaluates to true in a working state, it has
    no clause left, so the loop that completes the assignment has nothing
    to iterate over. *)
Lemma totalize_noop F A :
  disjoint_state F A → Formula_evaluate F A = Some true → totalize F A = A.
Proof.
  intros Hdis Hsat%Formula_evaluate_true.
  assert (Hvars : Formula_variables F = ∅).
  { apply set_eq. intros v. rewrite elem_of_Formula_variables. split; [|set_solver].
    intros (c & l & Hc & Hl & _). destruct (Hsat c Hc) as (l' & Hl' & Ht).
    rewrite (disjoint_state_undecided F A c l' Hdis Hc Hl') in Ht. done. }
  unfold totalize. by rewrite Hvars, elements_empty.
Qed.

Lemma Clause_reduce_empty c A :
  Clause_reduce c A = Some (mkClause ∅) ↔
  ∀ l, l ∈ literals c → Literal_eval l A = Some false.
Proof.
  rewrite Clause_reduce_Some. split.
  - intros [Hnt Heq] l Hl. specialize (Hnt l Hl).
    destruct (Literal_eval l A) as [[]|] eqn:E; [done..|].
    assert (l ∈ undecided_literals c A) by (by apply elem_of_undecided_literals).
    assert (undecided_literals c A = ∅) by congruence. set_solver.
  - intros Hf. split.
    + intros l Hl. rewrite (Hf l Hl). done.
    + f_equal. symmetry. apply set_eq. intros l.
      rewrite elem_of_undecided_literals. split; [|set_solver].
      intros [Hl Hu]. rewrite (Hf l Hl) in Hu. done.
Qed.

(** A clause of undecided literals is its own reduct. *)
Lemma Clause_reduce_undecided c A :
  Clause_reduce (mkClause (undecided_literals c A)) A
  = Some (mkClause (undecided_literals c A)).
Proof.
  apply Clause_reduce_Some. cbn [literals]. split.
  - intros l [_ Hu]%elem_of_undecided_literals. congruence.
  - f_equal. apply set_eq. intros l.
    rewrite !elem_of_undecided_literals. cbn [literals].
    rewrite elem_of_undecided_literals. tauto.
Qed.

Lemma Formula_reduce_empty A : Formula_reduce (mkFormula ∅) A = (mkFormula ∅, false).
Proof. unfold Formula_reduce. cbn [clauses]. by rewrite elements_empty. Qed.

Lemma unit_propagation_no_stop fuel F A ch :
  unit_propagation fuel F A ch ≠ StopIteration.
Proof.
  revert F A ch. induction fuel as [|fuel IH]; intros F A ch;
    cbn [unit_propagation]; [done|].
  destruct (decide (Formula_unit_clauses F A = ∅)); [done|].
  destruct (for_units_outcome (elements (Formula_unit_clauses F A)) F A)
    as [[[[f a] fl] ->]| ->]; [|done].
  destruct fl; [done|apply IH].
Qed.

Lemma simplify_loop_no_stop fuel F A : simplify_loop fuel F A ≠ StopIteration.
Proof.
  revert F A. induction fuel as [|fuel IH]; intros F A; cbn [simplify_loop]; [done|].
  pose proof (unit_propagation_no_stop (S fuel) F A false) as Hns.
  destruct (unit_propagation (S fuel) F A false) as [[[[f1 a1] ch1] ctr1]| | |];
    try done.
  destruct ctr1; [done|].
  destruct (pure_literal_elimination f1 a1 ch1) as [[[f2 a2] ch2] ctr2].
  destruct ctr2; [by destruct ch2|]. destruct ch2; [apply IH|done].
Qed.


(** * The claims *)

(** C1. Soundness of the solver: for every formula [F], if [solve] returns
    an assignment [A] (rather than [None]), then [F.evaluate(A)] returns
    [True]. *)
Theorem solve_sound (depth fuel : nat) (F : Formula) (A : Assignment) :
  solve depth fuel F = Ret (Some A) → Formula_evaluate F A = Some true.
Proof. intros [_ H]%dpll_sound. by apply Formula_evaluate_true. Qed.

Lemma solve_sound_witness :
  solve 4 4 example_chain = Ret (Some example_chain_model) ∧
  Formula_evaluate example_chain example_chain_model = Some true.
Proof.
  assert (H : solve 4 4 example_chain = Ret (Some example_chain_model))
    by (vm_compute; reflexivity).
  split; [exact H|exact (solve_sound 4 4 example_chain example_chain_model H)].
Defined.

(** C2. Totality of the returned assignment: every variable of the formula
    should be a key of the assignment that [solve] returns.  The code does
    not achieve this: on [(A ∨ B) ∧ (¬A ∨ B)] pure-literal elimination binds
    B, both clauses are dropped, and the completion loop runs over the
    variables of the simplified (empty) formula, so A stays unbound. *)
Example solve_omits_variable :
  solve 3 3 example_pure = Ret (Some {["B" := true]}) ∧
  "A" ∈ Formula_variables example_pure ∧
  "A" ∉ dom ({["B" := true]} : Assignment).
Proof.
  split; [by vm_compute|]. split.
  - apply elem_of_Formula_variables.
    exists (Clause_of [pos "A"; pos "B"]), (pos "A"). split; [|split; [|done]].
    + apply elem_of_Formula_of. split; [set_solver|].
      intros (v & Hp & Hn). unfold Clause_of in Hn. cbn [literals] in Hn. set_solver.
    + unfold Clause_of. cbn [literals]. set_solver.
  - rewrite dom_singleton_L. set_solver.
Qed.

(** C3. Completeness of the solver: for every formula [F], if [solve]
    returns [None], then no assignment makes [F.evaluate] return [True];
    this covers the total assignments over [F.variables()] (and every
    other assignment as well). *)
Theorem solve_complete (depth fuel : nat) (F : Formula) :
  solve depth fuel F = Ret None →
  ∀ T : Assignment, Formula_evaluate F T ≠ Some true.
Proof.
  intros Hnone%dpll_complete T HT%Formula_evaluate_true.
  apply Hnone. exists T. split; [apply map_empty_subseteq|done].
Qed.

Lemma solve_complete_witness :
  solve 2 3 example_conflict = Ret None ∧
  ∀ T : Assignment, Formula_evaluate example_conflict T ≠ Some true.
Proof.
  assert (H : solve 2 3 example_conflict = Ret None) by (vm_compute; reflexivity).
  split; [exact H|exact (solve_complete 2 3 example_conflict H)].
Defined.

(** C4. Termination of the search: [solve] returns a result as soon as the
    recursion may go deeper than the number of distinct variables of the
    formula (and the loops of [simplify] may run more often than it has
    clauses); the reason is that the formula passed to a recursive [dpll]
    call, [formula.reduce({var: choice})] for the simplified formula and
    the chosen variable, has a variable set that is a strict subset of the
    variable set of the parent call's formula. *)
Theorem search_terminates (depth fuel : nat) (F : Formula) :
  size (Formula_variables F) < depth → size (clauses F) < fuel →
  (∃ r, solve depth fuel F = Ret r) ∧
  (∀ fuel' (A : Assignment) F' A' ok var choice,
     simplify fuel' F A = Ret (F', A', ok) →
     choose_variable F' A' = Ret var →
     Formula_variables (Formula_reduce F' {[var := choice]}).1
     ⊂ Formula_variables F).
Proof.
  intros Hdepth Hfuel. split.
  - apply dpll_outcome; [apply disjoint_state_empty|done..].
  - intros fuel' A F' A' ok var choice Hsimp Hvar.
    apply simplify_loop_spec in Hsimp as (_ & Href%refines_variables & _).
    apply choose_variable_spec in Hvar as [Hv _].
    pose proof (Formula_reduce_variables F' {[var := choice]}) as Hsub.
    rewrite dom_singleton_L in Hsub. set_solver.
Qed.

Lemma search_terminates_witness :
  (size (Formula_variables example_chain) < 4 ∧
   size (clauses example_chain) < 4) ∧
  ∃ r, solve 4 4 example_chain = Ret r.
Proof.
  assert (H1 : size (Formula_variables example_chain) < 4) by (vm_compute; lia).
  assert (H2 : size (clauses example_chain) < 4) by (vm_compute; lia).
  split; [by split|exact (proj1 (search_terminates 4 4 example_chain H1 H2))].
Defined.

(** C5. Tautology-freedom: [Formula.of] returns a formula without any
    tautological clause, and [Formula.reduce] keeps a formula free of
    tautological clauses, as does [simplify], so none appears in the
    solver's working formula. *)
Theorem tautology_freedom (cls : list Clause) (F : Formula) (A : Assignment)
        (fuel : nat) :
  tautology_free (Formula_of cls) ∧
  (tautology_free F →
   tautology_free (Formula_reduce F A).1 ∧
   ∀ F' A' ok, simplify fuel F A = Ret (F', A', ok) → tautology_free F').
Proof.
  split.
  - intros c [_ Hc]%elem_of_Formula_of. done.
  - intros Hfree. split.
    + eapply refines_tautology_free; [apply Formula_reduce_refines|done].
    + intros F' A' ok (_ & Href & _)%simplify_loop_spec.
      by eapply refines_tautology_free.
Qed.

Lemma tautology_freedom_witness :
  tautology_free example_pure ∧
  tautology_free (Formula_reduce example_pure {["A" := true]}).1.
Proof.
  pose proof (tautology_freedom
                [Clause_of [pos "A"; pos "B"]; Clause_of [neg "A"; pos "B"]]
                example_pure {["A" := true]} 0) as [H1 H2].
  split; [exact H1|exact (proj1 (H2 H1))].
Defined.

(** C6. Contract of [Formula.reduce]: the contradiction flag is [True]
    exactly when some clause has all its literals false (it reduces to the
    empty clause), and then the returned formula is empty; otherwise the
    flag is [False] and the formula holds, for each clause without a true
    literal, the clause of its undecided literals, the clauses with a true
    literal being dropped. *)
Theorem Formula_reduce_contract (F : Formula) (A : Assignment) :
  ((Formula_reduce F A).2 = true ↔
   ∃ c, c ∈ clauses F ∧ ∀ l, l ∈ literals c → Literal_eval l A = Some false) ∧
  ((Formula_reduce F A).2 = true → (Formula_reduce F A).1 = mkFormula ∅) ∧
  ((Formula_reduce F A).2 = false →
   ∀ c', c' ∈ clauses (Formula_reduce F A).1 ↔
         ∃ c, c ∈ clauses F ∧
              (∀ l, l ∈ literals c → Literal_eval l A ≠ Some true) ∧
              c' = mkClause (undecided_literals c A)).
Proof.
  split; [|split].
  - rewrite Formula_reduce_flag. unfold reduces_to_empty.
    by setoid_rewrite Clause_reduce_empty.
  - destruct (Formula_reduce F A) as [F' fl] eqn:E. cbn [fst snd].
    intros ->. by apply Formula_reduce_true in E as [_ ->].
  - destruct (Formula_reduce F A) as [F' fl] eqn:E. cbn [fst snd].
    intros ->. apply Formula_reduce_false in E as [_ Hin].
    intros c'. rewrite Hin. by setoid_rewrite Clause_reduce_Some.
Qed.

(** C7. Idempotence of reduction: reducing the result of [F.reduce(A)]
    under [A] again returns the same formula, with the contradiction flag
    [False]. *)
Theorem Formula_reduce_idempotent (F : Formula) (A : Assignment) :
  Formula_reduce (Formula_reduce F A).1 A = ((Formula_reduce F A).1, false).
Proof.
  destruct (Formula_reduce F A) as [F1 fl] eqn:E. cbn [fst]. destruct fl.
  - apply Formula_reduce_true in E as [_ ->]. apply Formula_reduce_empty.
  - apply Formula_reduce_false in E as [Hne Hin].
    assert (Hfix : ∀ c', c' ∈ clauses F1 →
                         Clause_reduce c' A = Some c' ∧ c' ≠ mkClause ∅).
    { intros c' (c & Hc & Hred)%Hin. split.
      - apply Clause_reduce_Some in Hred as [_ ->]. apply Clause_reduce_undecided.
      - intros ->. apply Hne. by exists c. }
    rewrite Formula_reduce_ok.
    + f_equal. destruct F1 as [s]. f_equal. cbn [clauses] in *.
      apply set_eq. intros c'. rewrite elem_of_set_omap. split.
      * intros (c & Hc & Hred). destruct (Hfix c Hc) as [Hc' _]. congruence.
      * intros Hc'. exists c'. split; [done|]. by apply Hfix.
    + intros (c' & Hc' & Hred). destruct (Hfix c' Hc') as [Hsame Hnemp]. congruence.
Qed.




(** C9. Assertion validity in unit propagation: in a state where the
    variables of the working formula are disjoint from the keys of the
    assignment, as in every state reached from [solve], each clause
    processed by the unit-propagation loop has an undecided literal: the
    assertion does not fail, [simplify] raises nothing, and neither [dpll]
    from such a state nor [solve] fails the assertion. *)
Theorem simplify_assertion_holds (depth fuel : nat) (F : Formula)
        (A : Assignment) :
  disjoint_state F A →
  simplify fuel F A ≠ AssertionError ∧
  simplify fuel F A ≠ StopIteration ∧
  dpll depth fuel F A ≠ AssertionError ∧
  solve depth fuel F ≠ AssertionError.
Proof.
  intros Hdis. repeat split.
  - by apply simplify_loop_no_assertion.
  - apply simplify_loop_no_stop.
  - by apply dpll_no_assertion.
  - apply dpll_no_assertion, disjoint_state_empty.
Qed.

Lemma simplify_assertion_holds_witness :
  disjoint_state example_chain {["D" := true]} ∧
  simplify 10 example_chain {["D" := true]} ≠ AssertionError.
Proof.
  assert (H : disjoint_state example_chain {["D" := true]})
    by (apply (bool_decide_unpack _); vm_compute; exact I).
  split; [exact H|exact (proj1 (simplify_assertion_holds 4 10 _ _ H))].
Defined.

(** Outside such states the assertion can fail: with B already false, the
    clauses [A ∨ B] and [¬A ∨ B] are both unit, and after A is bound for
    the first, the second has no undecided literal left. *)
Example simplify_assertion_needs_disjointness :
  simplify 10 (mkFormula {[Clause_of [pos "A"; pos "B"];
                           Clause_of [neg "A"; pos "B"]]})
           {["B" := false]} = AssertionError.
Proof. by vm_compute. Qed.

(** C10. The bare clause constructor does no tautology filtering:
    [Clause.of(L)] is exactly the clause of the set of the literals of [L],
    so it is tautological whenever [L] has a literal and its negation; such
    a clause is removed only by [Formula.of]. *)
Theorem Clause_of_no_filtering (lits : list Literal) :
  Clause_of lits = mkClause (list_to_set lits) ∧
  (tautological (Clause_of lits) ↔
   ∃ v, mkLiteral v false ∈ lits ∧ mkLiteral v true ∈ lits) ∧
  (Clause_of lits ∈ clauses (Formula_of [Clause_of lits]) ↔
   ¬ tautological (Clause_of lits)).
Proof.
  split; [done|]. split.
  - unfold tautological, Clause_of. cbn [literals].
    by setoid_rewrite elem_of_list_to_set.
  - rewrite elem_of_Formula_of. set_solver.
Qed.

(** * Further properties of the code *)

(** ** Evaluation *)

Lemma Clause_evaluate_None c A :
  Clause_evaluate c A = None ↔
  (∀ l, l ∈ literals c → Literal_eval l A ≠ Some true) ∧
  ∃ l, l ∈ literals c ∧ Literal_eval l A = None.
Proof.
  split.
  - intros Hev. split.
    + intros l Hl Ht.
      assert (Clause_evaluate c A = Some true) by (apply Clause_evaluate_true; eauto).
      congruence.
    + apply evaluate_clause_loop_None in Hev as [?|(l & Hl%elem_of_elements & Hu)];
        [done|eauto].
  - intros [Hnt (l & Hl & Hu)].
    destruct (Clause_evaluate c A) as [[]|] eqn:E; [| |done].
    + apply Clause_evaluate_true in E as (l' & Hl' & Ht). by destruct (Hnt l' Hl').
    + rewrite Clause_evaluate_false in E. rewrite (E l Hl) in Hu. done.
Qed.

Lemma Clause_evaluate_mono c (A B : Assignment) b :
  A ⊆ B → Clause_evaluate c A = Some b → Clause_evaluate c B = Some b.
Proof.
  intros HAB. destruct b.
  - rewrite !Clause_evaluate_true. intros (l & Hl & Ht).
    exists l. eauto using Literal_eval_mono.
  - rewrite !Clause_evaluate_false. intros Hf l Hl. eauto using Literal_eval_mono.
Qed.

Lemma Formula_evaluate_false_clause F A :
  Formula_evaluate F A = Some false ↔
  ∃ c, c ∈ clauses F ∧ Clause_evaluate c A = Some false.
Proof.
  rewrite Formula_evaluate_false. by setoid_rewrite Clause_evaluate_false.
Qed.

Lemma Formula_evaluate_true_clause F A :
  Formula_evaluate F A = Some true ↔
  ∀ c, c ∈ clauses F → Clause_evaluate c A = Some true.
Proof.
  rewrite Formula_evaluate_true. unfold sat, sat_clause.
  by setoid_rewrite Clause_evaluate_true.
Qed.

(** X1. A literal and its complement: [Literal(name, not negated)]
    evaluates to the complement of the value of [Literal(name, negated)],
    and is undefined exactly when that one is. *)
Theorem Literal_eval_negate (l : Literal) (A : Assignment) :
  Literal_eval (negate l) A = negb <$> Literal_eval l A.
Proof.
  unfold Literal_eval, negate. cbn [name negated].
  destruct (A !! name l) as [[]|], (negated l); reflexivity.
Qed.

(** X2. [Clause.evaluate] does not depend on the iteration order: it is
    [True] when some literal is true, [False] when every literal is false
    (so the empty clause is false), and [None] when no literal is true and
    one is undecided. *)
Theorem Clause_evaluate_cases (c : Clause) (A : Assignment) :
  (Clause_evaluate c A = Some true ↔
   ∃ l, l ∈ literals c ∧ Literal_eval l A = Some true) ∧
  (Clause_evaluate c A = Some false ↔
   ∀ l, l ∈ literals c → Literal_eval l A = Some false) ∧
  (Clause_evaluate c A = None ↔
   (∀ l, l ∈ literals c → Literal_eval l A ≠ Some true) ∧
   ∃ l, l ∈ literals c ∧ Literal_eval l A = None) ∧
  Clause_evaluate (mkClause ∅) A = Some false.
Proof.
  split; [apply Clause_evaluate_true|]. split; [apply Clause_evaluate_false|].
  split; [apply Clause_evaluate_None|].
  apply Clause_evaluate_false. cbn [literals]. set_solver.
Qed.

(** X3. [Clause.is_unit] holds exactly for the clauses that evaluate to
    [None] and have a single undecided literal; the early exits of its
    loop do not depend on the iteration order. *)
Theorem Clause_is_unit_iff (c : Clause) (A : Assignment) :
  Clause_is_unit c A = true ↔
  Clause_evaluate c A = None ∧ size (undecided_literals c A) = 1.
Proof.
  rewrite Clause_is_unit_true, Clause_evaluate_None. split.
  - intros [Hnt (u & Hu & Hund & Huniq)]. split; [eauto|].
    assert (undecided_literals c A = {[u]}) as ->.
    { apply set_eq. intros l. rewrite elem_of_undecided_literals, elem_of_singleton.
      split; [intros [? ?]; eauto|by intros ->]. }
    apply size_singleton.
  - intros [[Hnt _] Hsz]. split; [done|].
    apply size_1_elem_of in Hsz as [u Hu%leibniz_equiv].
    assert (Hin : u ∈ undecided_literals c A) by (rewrite Hu; set_solver).
    apply elem_of_undecided_literals in Hin as [? ?].
    exists u. repeat split; [done..|].
    intros l Hl Hlu.
    assert (l ∈ undecided_literals c A) as Hl'
      by (by apply elem_of_undecided_literals).
    rewrite Hu in Hl'. by apply elem_of_singleton in Hl'.
Qed.

(** X4. [Clause.reduce] against [Clause.evaluate]: the clause is dropped
    ([None]) exactly when it evaluates to [True], it becomes the empty
    clause exactly when it evaluates to [False], every clause it returns
    holds only literals of the original that are undecided, and under the
    empty assignment a clause is returned unchanged. *)
Theorem Clause_reduce_evaluate (c : Clause) (A : Assignment) :
  (Clause_reduce c A = None ↔ Clause_evaluate c A = Some true) ∧
  (Clause_reduce c A = Some (mkClause ∅) ↔ Clause_evaluate c A = Some false) ∧
  (∀ c', Clause_reduce c A = Some c' →
         ∀ l, l ∈ literals c' ↔ l ∈ literals c ∧ Literal_eval l A = None) ∧
  Clause_reduce c ∅ = Some c.
Proof.
  split; [apply Clause_reduce_None_evaluate|].
  split; [by rewrite Clause_reduce_empty, Clause_evaluate_false|]. split.
  - intros c' [_ ->]%Clause_reduce_Some l. cbn [literals].
    apply elem_of_undecided_literals.
  - apply Clause_reduce_Some. split.
    + intros l _. unfold Literal_eval. by rewrite lookup_empty.
    + destruct c as [s]. f_equal. apply set_eq. intros l.
      rewrite elem_of_undecided_literals. cbn [literals].
      unfold Literal_eval. rewrite lookup_empty. tauto.
Qed.

(** X5. [Formula.evaluate] does not depend on the iteration order: it is
    [True] when every clause is true (so for the empty formula), [False]
    when some clause is false, and [None] when no clause is false and one
    is undecided. *)
Theorem Formula_evaluate_cases (F : Formula) (A : Assignment) :
  (Formula_evaluate F A = Some true ↔
   ∀ c, c ∈ clauses F → Clause_evaluate c A = Some true) ∧
  (Formula_evaluate F A = Some false ↔
   ∃ c, c ∈ clauses F ∧ Clause_evaluate c A = Some false) ∧
  (Formula_evaluate F A = None ↔
   (∀ c, c ∈ clauses F → Clause_evaluate c A ≠ Some false) ∧
   ∃ c, c ∈ clauses F ∧ Clause_evaluate c A = None) ∧
  Formula_evaluate (mkFormula ∅) A = Some true.
Proof.
  split; [apply Formula_evaluate_true_clause|].
  split; [apply Formula_evaluate_false_clause|]. split.
  - split.
    + intros Hev. split.
      * intros c Hc Hf.
        assert (Formula_evaluate F A = Some false)
          by (apply Formula_evaluate_false_clause; eauto).
        congruence.
      * apply evaluate_formula_loop_None in Hev
          as [?|(c & Hc%elem_of_elements & Hu)]; [done|eauto].
    + intros [Hnf (c & Hc & Hu)].
      destruct (Formula_evaluate F A) as [[]|] eqn:E; [| |done].
      * rewrite Formula_evaluate_true_clause in E. rewrite (E c Hc) in Hu. done.
      * apply Formula_evaluate_false_clause in E as (c' & Hc' & Hf).
        by destruct (Hnf c' Hc').
  - apply Formula_evaluate_true_clause. cbn [clauses]. set_solver.
Qed.

(** X6. Decided values are stable: once a clause or a formula evaluates to
    a boolean under an assignment, it evaluates to the same boolean under
    every assignment that extends it. *)
Theorem evaluate_stable (F : Formula) (c : Clause) (A B : Assignment) (b : bool) :
  A ⊆ B →
  (Clause_evaluate c A = Some b → Clause_evaluate c B = Some b) ∧
  (Formula_evaluate F A = Some b → Formula_evaluate F B = Some b).
Proof.
  intros HAB. split; [by apply Clause_evaluate_mono|]. destruct b.
  - rewrite !Formula_evaluate_true_clause. intros Ht c' Hc'.
    eauto using Clause_evaluate_mono.
  - rewrite !Formula_evaluate_false_clause. intros (c' & Hc' & Hf).
    exists c'. eauto using Clause_evaluate_mono.
Qed.

Lemma evaluate_stable_witness :
  ({["C" := false]} : Assignment) ⊆ example_chain_model ∧
  (Clause_evaluate (Clause_of [neg "C"]) {["C" := false]} = Some true →
   Clause_evaluate (Clause_of [neg "C"]) example_chain_model = Some true).
Proof.
  assert (H : ({["C" := false]} : Assignment) ⊆ example_chain_model)
    by (apply map_singleton_subseteq_l; vm_compute; reflexivity).
  split; [exact H|].
  exact (proj1 (evaluate_stable example_chain (Clause_of [neg "C"]) _ _ true H)).
Defined.

(** ** Reduction, construction and the two simplification tests *)

(** X7. [Formula.reduce] keeps the models: an assignment that agrees with
    the bindings used for the reduction makes the formula true exactly
    when the reduction reports no contradiction and the assignment makes
    the reduced formula true. *)
Theorem Formula_reduce_models (F : Formula) (P T : Assignment) :
  P ⊆ T →
  (Formula_evaluate F T = Some true ↔
   (Formula_reduce F P).2 = false ∧
   Formula_evaluate (Formula_reduce F P).1 T = Some true).
Proof.
  intros HP. rewrite !Formula_evaluate_true. split.
  - intros Hsat. by destruct (reduce_complete F P T HP Hsat) as (F' & -> & ?).
  - destruct (Formula_reduce F P) as [F' fl] eqn:E. cbn [fst snd].
    intros [-> Hsat]. by eapply reduce_sound.
Qed.

Lemma Formula_reduce_models_witness :
  ({["C" := false]} : Assignment) ⊆ example_chain_model ∧
  (Formula_evaluate example_chain example_chain_model = Some true ↔
   (Formula_reduce example_chain {["C" := false]}).2 = false ∧
   Formula_evaluate (Formula_reduce example_chain {["C" := false]}).1
                    example_chain_model = Some true).
Proof.
  assert (H : ({["C" := false]} : Assignment) ⊆ example_chain_model)
    by (apply map_singleton_subseteq_l; vm_compute; reflexivity).
  split; [exact H|exact (Formula_reduce_models example_chain _ _ H)].
Defined.

(** X8. [Formula.reduce] only removes: the reduced formula mentions no
    variable that the assignment binds and none that the formula did not
    mention, it has at most as many clauses, and each of its clauses is a
    subset of a clause of the formula. *)
Theorem Formula_reduce_shrinks (F : Formula) (A : Assignment) :
  Formula_variables (Formula_reduce F A).1 ⊆ Formula_variables F ∖ dom A ∧
  size (clauses (Formula_reduce F A).1) ≤ size (clauses F) ∧
  ∀ c', c' ∈ clauses (Formula_reduce F A).1 →
        ∃ c, c ∈ clauses F ∧ literals c' ⊆ literals c.
Proof.
  split; [apply Formula_reduce_variables|].
  split; [apply Formula_reduce_size|apply Formula_reduce_refines].
Qed.

(** X9. Reduction under the empty assignment: a formula that holds the
    empty clause is reported contradictory, every other formula is returned
    unchanged. *)
Theorem Formula_reduce_no_binding (F : Formula) :
  Formula_reduce F ∅ =
  if decide (mkClause ∅ ∈ clauses F) then (mkFormula ∅, true) else (F, false).
Proof.
  assert (Hid : ∀ c, Clause_reduce c ∅ = Some c).
  { intros c. apply Clause_reduce_Some. split.
    - intros l _. unfold Literal_eval. by rewrite lookup_empty.
    - destruct c as [s]. f_equal. apply set_eq. intros l.
      rewrite elem_of_undecided_literals. cbn [literals].
      unfold Literal_eval. rewrite lookup_empty. tauto. }
  destruct (decide (mkClause ∅ ∈ clauses F)) as [Hin|Hnotin].
  - apply Formula_reduce_contradiction. exists (mkClause ∅). by rewrite Hid.
  - rewrite Formula_reduce_ok.
    + f_equal. destruct F as [s]. f_equal. cbn [clauses]. apply set_eq. intros c.
      rewrite elem_of_set_omap. setoid_rewrite Hid. naive_solver.
    + intros (c & Hc & Hred). rewrite Hid in Hred. congruence.
Qed.

(** X10. [Formula.of] keeps every clause that is not tautological, whatever
    the order and the repetitions of its input, and building a formula
    again from the clauses of its result changes nothing. *)
Theorem Formula_of_keeps (cls : list Clause) :
  (∀ c, c ∈ clauses (Formula_of cls) ↔ c ∈ cls ∧ ¬ tautological c) ∧
  Formula_of (elements (clauses (Formula_of cls))) = Formula_of cls.
Proof.
  split; [intros c; apply elem_of_Formula_of|].
  destruct (Formula_of (elements (clauses (Formula_of cls)))) as [s1] eqn:E1.
  destruct (Formula_of cls) as [s2] eqn:E2. f_equal.
  apply set_eq. intros c.
  change (c ∈ clauses (mkFormula s1) ↔ c ∈ clauses (mkFormula s2)).
  rewrite <-E1, elem_of_Formula_of, elem_of_elements.
  change (c ∈ clauses (mkFormula s2) ∧ ¬ tautological c ↔ c ∈ clauses (mkFormula s2)).
  rewrite <-E2, elem_of_Formula_of. tauto.
Qed.

(** X11. [Formula.pure_literals] returns exactly the literals that occur
    undecided in a clause not yet true while their complement does not; it
    returns at most one literal per variable and never a literal of a bound
    variable. *)
Theorem Formula_pure_literals_exact (F : Formula) (A : Assignment) :
  (∀ l, l ∈ Formula_pure_literals F A ↔
        occurs_undecided F A l ∧ ¬ occurs_undecided F A (negate l)) ∧
  (∀ l1 l2, l1 ∈ Formula_pure_literals F A → l2 ∈ Formula_pure_literals F A →
            name l1 = name l2 → l1 = l2) ∧
  (∀ l, l ∈ Formula_pure_literals F A → name l ∉ dom A).
Proof.
  split; [intros l; apply elem_of_Formula_pure_literals|].
  split; [apply Formula_pure_literals_functional|].
  intros l Hl%Formula_pure_literals_undecided. by apply not_elem_of_dom.
Qed.

(** X12. In a state where no variable of the formula is bound, the unit
    clauses of the formula are exactly its one-literal clauses. *)
Theorem unit_clauses_one_literal (F : Formula) (A : Assignment) :
  disjoint_state F A →
  ∀ cl, cl ∈ Formula_unit_clauses F A ↔ cl ∈ clauses F ∧ size (literals cl) = 1.
Proof.
  intros Hdis cl. split.
  - intros [Hcl [u Hu]]%(unit_clauses_singleton F A); [|done].
    split; [done|]. rewrite Hu. apply size_singleton.
  - intros [Hcl Hsz]. apply elem_of_Formula_unit_clauses. split; [done|].
    apply size_1_elem_of in Hsz as [u Hu%leibniz_equiv].
    assert (Hund : ∀ l, l ∈ literals cl → Literal_eval l A = None)
      by (intros l Hl; by eapply disjoint_state_undecided).
    apply Clause_is_unit_true. split.
    + intros l Hl. rewrite (Hund l Hl). done.
    + exists u. rewrite Hu. split; [set_solver|]. split; [apply Hund; set_solver|].
      intros l Hl _. set_solver.
Qed.

Lemma unit_clauses_one_literal_witness :
  disjoint_state example_chain {["D" := true]} ∧
  (Clause_of [neg "C"] ∈ Formula_unit_clauses example_chain {["D" := true]} ↔
   Clause_of [neg "C"] ∈ clauses example_chain ∧
   size (literals (Clause_of [neg "C"])) = 1).
Proof.
  assert (H : disjoint_state example_chain {["D" := true]})
    by (apply (bool_decide_unpack _); vm_compute; exact I).
  split; [exact H|exact (unit_clauses_one_literal example_chain _ H _)].
Defined.

(** ** The branching variable *)

Lemma count_literals_fold lits (A : Assignment) (d : gmap string nat) v :
  default 0 (foldl (λ (d : gmap string nat) lit,
                      match Literal_eval lit A with
                      | None => <[name lit := default 0 (d !! name lit) + 1]> d
                      | Some _ => d
                      end) d lits !! v)
  = default 0 (d !! v)
    + length (filter (λ lit, name lit = v ∧ Literal_eval lit A = None) lits).
Proof.
  revert d. induction lits as [|x lits IH]; intros d; cbn [foldl].
  - rewrite filter_nil. cbn [length]. lia.
  - rewrite IH, filter_cons. destruct (Literal_eval x A) eqn:E.
    + rewrite decide_False by (intros [_ ?]; done). done.
    + destruct (decide (name x = v)) as [->|Hne].
      * rewrite decide_True by done. rewrite lookup_insert_eq.
        cbn [default from_option id length]. lia.
      * rewrite decide_False by (intros [? _]; done).
        by rewrite lookup_insert_ne.
Qed.

Lemma occurrence_counts_occurrences F A v :
  default 0 (occurrence_counts F A !! v) = occurrences F A v.
Proof.
  unfold occurrence_counts, occurrences.
  generalize (elements (clauses F)). intros cls.
  assert (Hgen : ∀ d : gmap string nat,
    default 0 (foldl (count_clause A) d cls !! v)
    = default 0 (d !! v)
      + sum_list (map (λ cl,
            match Clause_evaluate cl A with
            | Some true => 0
            | _ => length (filter (λ lit, name lit = v ∧ Literal_eval lit A = None)
                                  (elements (literals cl)))
            end) cls)).
  { induction cls as [|x cls IH]; intros d; cbn [foldl map sum_list_with]; [lia|].
    rewrite IH. unfold count_clause.
    destruct (Clause_evaluate x A) as [[]|]; rewrite ?count_literals_fold;
      unfold id; lia. }
  rewrite Hgen, lookup_empty. done.
Qed.

Lemma keep_max_fold_le items best kv :
  foldl keep_max best items = Some kv →
  (∀ b, best = Some b → b.2 ≤ kv.2) ∧ ∀ x, x ∈ items → x.2 ≤ kv.2.
Proof.
  revert best. induction items as [|y items IH]; intros best; cbn [foldl].
  - intros ->. split; [intros b [= ->]; done|]. intros x Hx. by apply elem_of_nil in Hx.
  - intros [Hb Hin]%IH. unfold keep_max in Hb.
    assert (Hy : y.2 ≤ kv.2).
    { destruct best as [b|]; [|by apply Hb].
      case_bool_decide; [by apply Hb|]. specialize (Hb b eq_refl). lia. }
    split.
    + intros b ->. case_bool_decide; [lia|by apply Hb].
    + intros x [->|Hx]%elem_of_cons; [done|by apply Hin].
Qed.

(** X13. The variable returned by [choose_variable] is a variable of the
    formula that the assignment does not bind, and no variable has more
    undecided occurrences in the clauses that are not already true. *)
Theorem choose_variable_most_frequent (F : Formula) (A : Assignment) (v : string) :
  choose_variable F A = Ret v →
  v ∈ Formula_variables F ∧ (v ∉ dom A) ∧
  (∀ v', occurrences F A v' ≤ occurrences F A v).
Proof.
  intros Hv. pose proof (choose_variable_spec F A v Hv) as [Hin Hfresh].
  split; [done|]. split; [by apply not_elem_of_dom|].
  intros v'. rewrite <-!occurrence_counts_occurrences.
  unfold choose_variable in Hv.
  destruct (max_by_count _) as [[k n]|] eqn:Hmax.
  - injection Hv as <-. cbn [fst].
    pose proof (max_by_count_Some _ _ Hmax) as Hk%elem_of_map_to_list.
    rewrite Hk. cbn [default from_option id].
    destruct (occurrence_counts F A !! v') as [n'|] eqn:E;
      cbn [default from_option id]; [|lia].
    apply keep_max_fold_le in Hmax as [_ Hle].
    apply (Hle (v', n')). by apply elem_of_map_to_list.
  - apply max_by_count_None, map_to_list_empty_iff in Hmax.
    rewrite Hmax, lookup_empty. cbn [default from_option id]. lia.
Qed.

Lemma choose_variable_most_frequent_witness :
  choose_variable example_branch ∅ = Ret "B" ∧
  occurrences example_branch ∅ "A" ≤ occurrences example_branch ∅ "B".
Proof.
  assert (H : choose_variable example_branch ∅ = Ret "B") by (vm_compute; reflexivity).
  split; [exact H|].
  exact (proj2 (proj2 (choose_variable_most_frequent example_branch ∅ "B" H)) "A").
Defined.

(** X14. When [choose_variable] raises: on a formula that evaluates to
    [None] it returns a variable with an undecided occurrence, so the fallback
    [next(iter(remaining))] is not what decides; when every variable of the
    formula is bound, [counts] and [remaining] are both empty and
    [next] raises [StopIteration]. *)
Theorem choose_variable_raises (F : Formula) (A : Assignment) :
  (Formula_evaluate F A = None →
   ∃ v, choose_variable F A = Ret v ∧ 0 < occurrences F A v) ∧
  (Formula_variables F ⊆ dom A → choose_variable F A = StopIteration).
Proof.
  split.
  - intros Hev. destruct (choose_variable_outcome F A Hev) as [v Hv].
    exists v. split; [done|].
    destruct (Formula_evaluate_None F A Hev) as [l Hl].
    assert (Hdom : name l ∈ dom (occurrence_counts F A))
      by (apply elem_of_dom_occurrence_counts; eauto).
    unfold choose_variable in Hv.
    destruct (max_by_count _) as [[k n]|] eqn:Hmax.
    + injection Hv as <-. cbn [fst].
      pose proof (max_by_count_Some _ _ Hmax) as Hk%elem_of_map_to_list.
      assert (Hkd : k ∈ dom (occurrence_counts F A)) by (apply elem_of_dom; eauto).
      apply elem_of_dom_occurrence_counts in Hkd as (l' & <- & c & Hc & Hnt & Hl' & Hu).
      unfold occurrences.
      assert (Hpos : 0 < length (filter (λ lit, name lit = name l' ∧
                                                Literal_eval lit A = None)
                                        (elements (literals c)))).
      { assert (l' ∈ filter (λ lit, name lit = name l' ∧ Literal_eval lit A = None)
                            (elements (literals c))) as Hf.
        { apply list_elem_of_filter. split; [done|by apply elem_of_elements]. }
        destruct (filter _ _); [by apply elem_of_nil in Hf|cbn [length]; lia]. }
      apply elem_of_elements in Hc.
      revert Hc. generalize (elements (clauses F)). intros cls Hc.
      induction cls as [|x cls IH]; [by apply elem_of_nil in Hc|].
      cbn [map sum_list_with]. unfold id in *. apply elem_of_cons in Hc as [<-|Hc].
      * destruct (Clause_evaluate c A) as [[]|]; [done|lia..].
      * specialize (IH Hc). lia.
    + apply max_by_count_None, map_to_list_empty_iff in Hmax.
      rewrite Hmax, dom_empty_L in Hdom. set_solver.
  - intros Hsub. unfold choose_variable.
    assert (Hcounts : occurrence_counts F A = ∅).
    { apply dom_empty_iff_L, set_eq. intros v.
      rewrite elem_of_dom_occurrence_counts. split; [|set_solver].
      intros (l & <- & c & Hc & _ & Hl & Hu). apply Literal_eval_None in Hu.
      apply not_elem_of_dom in Hu. destruct Hu. apply Hsub.
      apply elem_of_Formula_variables. by exists c, l. }
    rewrite Hcounts, map_to_list_empty. cbn [max_by_count foldl].
    replace (Formula_variables F ∖ dom A) with (∅ : gset string) by set_solver.
    by rewrite elements_empty.
Qed.

Lemma choose_variable_raises_witness :
  Formula_evaluate example_chain ∅ = None ∧
  ∃ v, choose_variable example_chain ∅ = Ret v ∧ 0 < occurrences example_chain ∅ v.
Proof.
  assert (H : Formula_evaluate example_chain ∅ = None) by (vm_compute; reflexivity).
  split; [exact H|exact (proj1 (choose_variable_raises example_chain ∅) H)].
Defined.

(** ** [simplify] and the search *)

Lemma unit_propagation_changed fuel F A F' A' ch' ctr :
  unit_propagation fuel F A true = Ret (F', A', ch', ctr) → ch' = true.
Proof.
  revert F A. induction fuel as [|fuel IH]; intros F A; cbn [unit_propagation];
    [done|].
  destruct (decide (Formula_unit_clauses F A = ∅)); [by intros [= <- <- <- <-]|].
  destruct (for_units _ F A) as [[[f a] fl]| | |]; try done.
  destruct fl; [by intros [= <- <- <- <-]|apply IH].
Qed.

Lemma unit_propagation_exit fuel F A ch F' A' ch' :
  unit_propagation fuel F A ch = Ret (F', A', ch', false) →
  Formula_unit_clauses F' A' = ∅ ∧
  ∀ cl, cl ∈ Formula_unit_clauses F A → Clause_evaluate cl A' = Some true.
Proof.
  revert F A ch. induction fuel as [|fuel IH]; intros F A ch; cbn [unit_propagation];
    [done|].
  destruct (decide (Formula_unit_clauses F A = ∅)) as [Hnone|Hsome].
  - intros [= <- <- <-]. split; [done|]. rewrite Hnone. set_solver.
  - destruct (for_units _ F A) as [[[f a] fl]| | |] eqn:Hfor; try done.
    destruct fl; [done|]. intros Hrec.
    destruct (IH _ _ _ Hrec) as [Hexit _]. split; [done|].
    apply unit_propagation_spec in Hrec as (Ha & _).
    intros cl Hcl%elem_of_elements.
    revert Hfor Hcl. generalize (elements (Formula_unit_clauses F A)).
    intros units. clear Hsome. revert F A.
    induction units as [|x units IHu]; intros F A; cbn [for_units].
    { intros _ Hcl. by apply elem_of_nil in Hcl. }
    destruct (find_target _ _) as [t|] eqn:Ht; [|done].
    destruct (Formula_reduce F _) as [F1 fl1]. destruct fl1; [done|].
    intros Hfor [->|Hcl]%elem_of_cons; [|by eapply IHu].
    apply for_units_spec in Hfor as (Hext & _).
    apply find_target_Some in Ht as [Hin%elem_of_elements _].
    apply Clause_evaluate_true. exists t. split; [done|].
    apply Literal_eval_true.
    eapply lookup_weaken; [|exact Ha]. eapply lookup_weaken; [|exact Hext].
    apply lookup_insert_eq.
Qed.

Lemma pure_literal_elimination_unchanged F A ch F' A' :
  pure_literal_elimination F A ch = (F', A', false, false) →
  Formula_pure_literals F A = ∅ ∧ F' = F ∧ A' = A.
Proof.
  unfold pure_literal_elimination.
  destruct (decide (Formula_pure_literals F A = ∅)); [by intros [= <- <- ?]|].
  by destruct (Formula_reduce F _) as [F1 []].
Qed.

(** X15. What [simplify] reaches: when it reports success, the formula it
    returns has neither a unit clause nor a pure literal under the
    assignment it returns. *)
Theorem simplify_fixpoint (fuel : nat) (F : Formula) (A : Assignment)
        (F' : Formula) (A' : Assignment) :
  simplify fuel F A = Ret (F', A', true) →
  Formula_unit_clauses F' A' = ∅ ∧ Formula_pure_literals F' A' = ∅.
Proof.
  unfold simplify. revert F A.
  induction fuel as [|fuel IH]; intros F A; cbn [simplify_loop]; [done|].
  destruct (unit_propagation (S fuel) F A false) as [[[[f1 a1] ch1] ctr1]| | |] eqn:Hup;
    try done.
  destruct ctr1; [done|].
  apply unit_propagation_exit in Hup as [Hunits _].
  destruct (pure_literal_elimination f1 a1 ch1) as [[[f2 a2] ch2] ctr2] eqn:Hpl.
  destruct ctr2; [by destruct ch2|]. destruct ch2; [apply IH|].
  apply pure_literal_elimination_unchanged in Hpl as (Hpures & -> & ->).
  by intros [= <- <-].
Qed.

Lemma simplify_fixpoint_witness :
  simplify 4 example_xor ∅ = Ret (example_xor, ∅, true) ∧
  Formula_unit_clauses example_xor ∅ = ∅ ∧
  Formula_pure_literals example_xor ∅ = ∅.
Proof.
  assert (H : simplify 4 example_xor ∅ = Ret (example_xor, ∅, true))
    by (apply (bool_decide_unpack _); vm_compute; exact I).
  split; [exact H|exact (simplify_fixpoint 4 example_xor ∅ _ _ H)].
Defined.

(** X16. [simplify] keeps satisfiability: it only extends the assignment,
    and the formula has a model that agrees with the assignment exactly when
    [simplify] reports success and the formula it returns has a model that
    agrees with the assignment it returns.  So a reported failure means that
    no model agrees with the assignment. *)
Theorem simplify_equisatisfiable (fuel : nat) (F : Formula) (A : Assignment)
        (F' : Formula) (A' : Assignment) (ok : bool) :
  simplify fuel F A = Ret (F', A', ok) →
  A ⊆ A' ∧
  (satisfiable_from A F ↔ ok = true ∧ satisfiable_from A' F').
Proof.
  unfold simplify. intros Hsimp.
  pose proof (simplify_loop_spec _ _ _ _ _ _ Hsimp) as (HA & _ & _ & Hsound).
  split; [done|]. split.
  - intros Hsat. by eapply simplify_loop_complete.
  - intros [-> (T & HT & Hsat)]. exists T. split; [by etrans|by apply Hsound].
Qed.

Lemma simplify_equisatisfiable_witness :
  simplify 4 example_conflict ∅ = Ret (mkFormula ∅, {["A" := true]}, false) ∧
  ¬ satisfiable_from ∅ example_conflict.
Proof.
  assert (H : simplify 4 example_conflict ∅
              = Ret (mkFormula ∅, {["A" := true]}, false))
    by (apply (bool_decide_unpack _); vm_compute; exact I).
  split; [exact H|].
  intros Hsat.
  pose proof (proj1 (proj2 (simplify_equisatisfiable 4 _ _ _ _ _ H)) Hsat) as [Hok _].
  discriminate Hok.
Defined.

(** X17. What unit propagation leaves behind: when [simplify] reports
    success, every clause that was unit at its start is true under the
    assignment it returns. *)
Theorem simplify_satisfies_units (fuel : nat) (F : Formula) (A : Assignment)
        (F' : Formula) (A' : Assignment) :
  simplify fuel F A = Ret (F', A', true) →
  ∀ cl, cl ∈ Formula_unit_clauses F A → Clause_evaluate cl A' = Some true.
Proof.
  unfold simplify. destruct fuel as [|fuel]; cbn [simplify_loop]; [done|].
  destruct (unit_propagation (S fuel) F A false) as [[[[f1 a1] ch1] ctr1]| | |] eqn:Hup;
    try done.
  destruct ctr1; [done|].
  apply unit_propagation_exit in Hup as [_ Htrue].
  destruct (pure_literal_elimination f1 a1 ch1) as [[[f2 a2] ch2] ctr2] eqn:Hpl.
  apply pure_literal_elimination_spec in Hpl as (Ha2 & _).
  intros Hrest cl Hcl.
  assert (Ha : a2 ⊆ A').
  { destruct ctr2; [by destruct ch2|]. destruct ch2.
    - by apply simplify_loop_spec in Hrest as (? & _).
    - by injection Hrest as <- <-. }
  eapply Clause_evaluate_mono; [|by apply Htrue]. by etrans.
Qed.

Lemma simplify_satisfies_units_witness :
  simplify 4 example_chain ∅ = Ret (mkFormula ∅, example_chain_model, true) ∧
  (Clause_of [neg "C"] ∈ Formula_unit_clauses example_chain ∅ →
   Clause_evaluate (Clause_of [neg "C"]) example_chain_model = Some true).
Proof.
  assert (H : simplify 4 example_chain ∅
              = Ret (mkFormula ∅, example_chain_model, true))
    by (apply (bool_decide_unpack _); vm_compute; exact I).
  split; [exact H|exact (simplify_satisfies_units 4 _ _ _ _ H _)].
Defined.

(** ** Which variables get bound *)

Lemma for_units_dom units F A F' A' flag (V : gset string) :
  (∀ cl l, cl ∈ units → l ∈ literals cl → name l ∈ V) →
  for_units units F A = Ret (F', A', flag) → dom A' ⊆ dom A ∪ V.
Proof.
  revert F A. induction units as [|cl rest IH]; intros F A HV; cbn [for_units].
  - intros [= <- <- <-]. set_solver.
  - destruct (find_target _ _) as [t|] eqn:Ht; [|done].
    apply find_target_Some in Ht as [Hin%elem_of_elements _].
    assert (name t ∈ V) by (eapply HV; [left|done]).
    destruct (Formula_reduce F _) as [F1 fl]. destruct fl.
    + intros [= <- <- <-]. rewrite dom_insert_L. set_solver.
    + intros Hrec%IH.
      * rewrite dom_insert_L in Hrec. set_solver.
      * intros cl' l Hcl'. apply HV. by right.
Qed.

Lemma unit_propagation_dom fuel F A ch F' A' ch' ctr :
  unit_propagation fuel F A ch = Ret (F', A', ch', ctr) →
  dom A' ⊆ dom A ∪ Formula_variables F.
Proof.
  revert F A ch. induction fuel as [|fuel IH]; intros F A ch; cbn [unit_propagation];
    [done|].
  destruct (decide (Formula_unit_clauses F A = ∅)).
  { intros [= <- <- <- <-]. set_solver. }
  destruct (for_units _ F A) as [[[f a] fl]| | |] eqn:Hfor; try done.
  pose proof (for_units_spec _ _ _ _ _ _ Hfor) as (_ & Href%refines_variables & _).
  apply (for_units_dom _ _ _ _ _ _ (Formula_variables F)) in Hfor.
  - destruct fl; [by intros [= <- <- <- <-]|]. intros Hrec%IH. set_solver.
  - intros cl l [Hcl _]%elem_of_elements%elem_of_Formula_unit_clauses Hl.
    apply elem_of_Formula_variables. by exists cl, l.
Qed.

Lemma pure_literal_elimination_dom F A ch F' A' ch' ctr :
  pure_literal_elimination F A ch = (F', A', ch', ctr) →
  dom A' ⊆ dom A ∪ Formula_variables F.
Proof.
  unfold pure_literal_elimination.
  destruct (decide (Formula_pure_literals F A = ∅)).
  { intros [= <- <- <- <-]. set_solver. }
  assert (Hdom : dom (bind_literals (elements (Formula_pure_literals F A)) A)
                 ⊆ dom A ∪ Formula_variables F).
  { intros v [?|(l & Hl%elem_of_elements & <-)]%bind_literals_dom; [set_solver|].
    apply elem_of_Formula_pure_literals in Hl as [(c & Hc & _ & Hlc & _) _].
    apply elem_of_union_r, elem_of_Formula_variables. by exists c, l. }
  destruct (Formula_reduce F _) as [F1 []]; by intros [= <- <- <- <-].
Qed.

Lemma simplify_loop_dom fuel F A F' A' ok :
  simplify_loop fuel F A = Ret (F', A', ok) →
  dom A' ⊆ dom A ∪ Formula_variables F.
Proof.
  revert F A. induction fuel as [|fuel IH]; intros F A; cbn [simplify_loop]; [done|].
  destruct (unit_propagation (S fuel) F A false) as [[[[f1 a1] ch1] ctr1]| | |] eqn:Hup;
    try done.
  pose proof (unit_propagation_dom _ _ _ _ _ _ _ _ Hup) as Hd1.
  apply unit_propagation_spec in Hup as (_ & Href1%refines_variables & _).
  destruct ctr1; [by intros [= <- <- <-]|].
  destruct (pure_literal_elimination f1 a1 ch1) as [[[f2 a2] ch2] ctr2] eqn:Hpl.
  pose proof (pure_literal_elimination_dom _ _ _ _ _ _ _ Hpl) as Hd2.
  apply pure_literal_elimination_spec in Hpl as (_ & Href2%refines_variables & _).
  destruct ctr2; [destruct ch2; intros [= <- <- <-]; set_solver|].
  destruct ch2; [|intros [= <- <- <-]; set_solver].
  intros Hrec%IH. set_solver.
Qed.

Lemma totalize_lookup F (A : Assignment) v :
  totalize F A !! v =
  match A !! v with
  | Some b => Some b
  | None => if decide (v ∈ Formula_variables F) then Some false else None
  end.
Proof.
  unfold totalize.
  assert (Hgen : ∀ (vs : list string) (B : Assignment),
    foldl (λ (total : Assignment) v,
             match total !! v with
             | None => <[v := false]> total
             | Some _ => total
             end) B vs !! v =
    match B !! v with
    | Some b => Some b
    | None => if decide (v ∈ vs) then Some false else None
    end).
  { induction vs as [|x vs IH]; intros B; cbn [foldl].
    - destruct (B !! v); [done|]. rewrite decide_False; [done|apply not_elem_of_nil].
    - rewrite IH. destruct (B !! x) eqn:Ex.
      + destruct (B !! v) eqn:Ev; [done|].
        assert (x ≠ v) by congruence.
        destruct (decide (v ∈ vs)).
        * rewrite decide_True; [done|by right].
        * rewrite decide_False; [done|]. rewrite elem_of_cons. naive_solver.
      + destruct (decide (x = v)) as [->|Hne].
        * rewrite lookup_insert_eq, Ex. rewrite decide_True; [done|left].
        * rewrite lookup_insert_ne by done. destruct (B !! v); [done|].
          destruct (decide (v ∈ vs)).
          -- rewrite decide_True; [done|by right].
          -- rewrite decide_False; [done|]. rewrite elem_of_cons. naive_solver. }
  rewrite Hgen. destruct (A !! v); [done|].
  destruct (decide (v ∈ elements (Formula_variables F))) as [Hin|Hnin];
    rewrite elem_of_elements in *.
  - by rewrite decide_True.
  - by rewrite decide_False.
Qed.

Lemma dpll_dom depth fuel F A R :
  dpll depth fuel F A = Ret (Some R) → dom R ⊆ dom A ∪ Formula_variables F.
Proof.
  revert F A. induction depth as [|depth IH]; intros F A; cbn [dpll]; [done|].
  unfold simplify.
  destruct (simplify_loop fuel F A) as [[[F' A'] ok]| | |] eqn:Hsimp; try done.
  pose proof (simplify_loop_dom _ _ _ _ _ _ Hsimp) as Hd.
  apply simplify_loop_spec in Hsimp as (_ & Href%refines_variables & _).
  destruct ok; cbn [negb]; [|done].
  destruct (Formula_evaluate F' A') as [[]|] eqn:Hev; [|done|].
  - intros [= <-]. intros v Hv. apply elem_of_dom in Hv as [b Hb].
    rewrite totalize_lookup in Hb. destruct (A' !! v) eqn:E.
    + assert (v ∈ dom A') by (apply elem_of_dom; eauto). set_solver.
    + destruct (decide (v ∈ Formula_variables F')); [set_solver|done].
  - destruct (choose_variable F' A') as [v| | |] eqn:Hvar; try done.
    apply choose_variable_spec in Hvar as [Hv _].
    intros (b & F1 & _ & Hred & Hrec%IH)%for_choices_Some.
    pose proof (Formula_reduce_variables F' {[v := b]}) as Hsub.
    rewrite Hred in Hsub. cbn [fst] in Hsub.
    rewrite dom_insert_L in Hrec. set_solver.
Qed.

(** X18. The completion loop of [dpll] ([total[v] = False] for the
    variables of the formula at hand that are not bound) keeps every binding
    of the assignment, binds each other variable of that formula to [False],
    and binds nothing else. *)
Theorem totalize_bindings (F : Formula) (A : Assignment) (v : string) :
  totalize F A !! v =
  match A !! v with
  | Some b => Some b
  | None => if decide (v ∈ Formula_variables F) then Some false else None
  end.
Proof. apply totalize_lookup. Qed.

(** X19. The assignment returned by the search extends the assignment the
    search was called with and binds, besides, only variables of the formula;
    in particular [solve] binds only variables of its formula. *)
Theorem dpll_binds_formula_variables (depth fuel : nat) (F : Formula)
        (A R : Assignment) :
  dpll depth fuel F A = Ret (Some R) →
  A ⊆ R ∧ dom R ⊆ dom A ∪ Formula_variables F.
Proof.
  intros H. split; [by apply dpll_sound in H as [? _]|by eapply dpll_dom].
Qed.

Lemma dpll_binds_formula_variables_witness :
  dpll 4 4 example_chain ∅ = Ret (Some example_chain_model) ∧
  dom example_chain_model ⊆ dom (∅ : Assignment) ∪ Formula_variables example_chain.
Proof.
  assert (H : dpll 4 4 example_chain ∅ = Ret (Some example_chain_model))
    by (vm_compute; reflexivity).
  split; [exact H|exact (proj2 (dpll_binds_formula_variables 4 4 _ _ _ H))].
Defined.

(** ** [solve] as a decision procedure *)

(** X20. With recursion depth above the number of variables and loop fuel
    above the number of clauses, [solve] returns an assignment exactly when
    some assignment makes the formula evaluate to [True], and [None] exactly
    when none does. *)
Theorem solve_decides (depth fuel : nat) (F : Formula) :
  size (Formula_variables F) < depth → size (clauses F) < fuel →
  ((∃ A, solve depth fuel F = Ret (Some A)) ↔
   ∃ T : Assignment, Formula_evaluate F T = Some true) ∧
  (solve depth fuel F = Ret None ↔
   ∀ T : Assignment, Formula_evaluate F T ≠ Some true).
Proof.
  intros Hdepth Hfuel. unfold solve.
  destruct (dpll_outcome depth fuel F ∅ (disjoint_state_empty F) Hdepth Hfuel)
    as [r Hr].
  assert (Hnone : dpll depth fuel F ∅ = Ret None →
                  ∀ T : Assignment, Formula_evaluate F T ≠ Some true).
  { intros Hn%dpll_complete T HT%Formula_evaluate_true.
    apply Hn. exists T. split; [apply map_empty_subseteq|done]. }
  assert (Hsome : ∀ A, dpll depth fuel F ∅ = Ret (Some A) →
                       Formula_evaluate F A = Some true).
  { intros A [_ HA]%dpll_sound. by apply Formula_evaluate_true. }
  split; split.
  - intros [A HA]. eauto.
  - intros [T HT]. destruct r as [A|]; [eauto|]. by destruct (Hnone Hr T).
  - done.
  - intros Hun. destruct r as [A|]; [|done]. by destruct (Hun A (Hsome A Hr)).
Qed.

Lemma solve_decides_witness :
  (size (Formula_variables example_conflict) < 2 ∧
   size (clauses example_conflict) < 3) ∧
  (solve 2 3 example_conflict = Ret None ↔
   ∀ T : Assignment, Formula_evaluate example_conflict T ≠ Some true).
Proof.
  assert (H1 : size (Formula_variables example_conflict) < 2) by (vm_compute; lia).
  assert (H2 : size (clauses example_conflict) < 3) by (vm_compute; lia).
  split; [by split|exact (proj2 (solve_decides 2 3 example_conflict H1 H2))].
Defined.

(** X21. The two degenerate inputs: the formula without clauses is
    satisfiable and [solve] returns the empty assignment for it; a formula
    that holds the empty clause is reported unsatisfiable, whatever else it
    holds, as soon as one recursion level and one loop pass are allowed. *)
Theorem solve_degenerate (depth fuel : nat) (F : Formula) :
  solve (S depth) (S fuel) (mkFormula ∅) = Ret (Some ∅) ∧
  (mkClause ∅ ∈ clauses F → solve (S depth) (S fuel) F = Ret None).
Proof.
  split.
  - unfold solve. cbn [dpll]. unfold simplify. cbn [simplify_loop unit_propagation].
    assert (Hunits : Formula_unit_clauses (mkFormula ∅) ∅ = ∅).
    { apply set_eq. intros cl. rewrite elem_of_Formula_unit_clauses. set_solver. }
    rewrite decide_True by done.
    assert (Hpures : Formula_pure_literals (mkFormula ∅) ∅ = ∅).
    { apply set_eq. intros l. rewrite elem_of_Formula_pure_literals.
      unfold occurs_undecided. set_solver. }
    unfold pure_literal_elimination. rewrite decide_True by done.
    cbn [negb].
    assert (Hev : Formula_evaluate (mkFormula ∅) ∅ = Some true).
    { apply Formula_evaluate_true. intros c Hc. set_solver. }
    rewrite Hev, totalize_noop; [done|apply disjoint_state_empty|done].
  - intros Hemp. unfold solve.
    assert (Hcontra : ∀ P : Assignment, Formula_reduce F P = (mkFormula ∅, true)).
    { intros P. apply Formula_reduce_contradiction. exists (mkClause ∅).
      split; [done|]. apply Clause_reduce_empty. cbn [literals]. set_solver. }
    cbn [dpll]. unfold simplify. cbn [simplify_loop unit_propagation].
    destruct (decide (Formula_unit_clauses F ∅ = ∅)) as [Hnone|Hsome].
    + unfold pure_literal_elimination.
      destruct (decide (Formula_pure_literals F ∅ = ∅)) as [Hp|Hp].
      * cbn [negb].
        assert (Hev : Formula_evaluate F ∅ = Some false).
        { apply Formula_evaluate_false. exists (mkClause ∅). split; [done|].
          cbn [literals]. set_solver. }
        by rewrite Hev.
      * by rewrite Hcontra.
    + pose proof (for_units_no_assertion (elements (Formula_unit_clauses F ∅)) F ∅
                    (disjoint_state_empty F) (NoDup_elements _)) as Hna.
      destruct (elements (Formula_unit_clauses F ∅)) as [|cl rest] eqn:Hel.
      { apply elements_empty_inv, leibniz_equiv in Hel. done. }
      cbn [for_units] in *.
      destruct (find_target _ _) as [t|].
      * by rewrite Hcontra.
      * exfalso. apply Hna; [|done]. intros cl' Hcl'.
        apply (unit_clauses_singleton F ∅); [apply disjoint_state_empty|].
        apply elem_of_elements. by rewrite Hel.
Qed.

Lemma solve_degenerate_witness :
  mkClause ∅ ∈ clauses (mkFormula {[mkClause ∅; Clause_of [pos "A"]]}) ∧
  solve 1 1 (mkFormula {[mkClause ∅; Clause_of [pos "A"]]}) = Ret None.
Proof.
  assert (H : mkClause ∅ ∈ clauses (mkFormula {[mkClause ∅; Clause_of [pos "A"]]}))
    by (cbn [clauses]; set_solver).
  split; [exact H|exact (proj2 (solve_degenerate 0 0 _) H)].
Defined.

(** ** Reading the input *)

Lemma elem_of_parse_clause pieces l :
  l ∈ literals (parse_clause pieces) ↔
  ∃ tok, tok ∈ pieces ∧ tok ≠ EmptyString ∧ parse_token tok = l.
Proof.
  unfold parse_clause, Clause_of. cbn [literals].
  rewrite elem_of_list_to_set, elem_of_elements.
  assert (Hgen : ∀ (toks : list string) (acc : gset Literal),
    l ∈ foldl (λ (lits : gset Literal) tok, {[parse_token tok]} ∪ lits) acc toks ↔
    l ∈ acc ∨ ∃ tok, tok ∈ toks ∧ parse_token tok = l).
  { induction toks as [|x toks IH]; intros acc; cbn [foldl].
    - setoid_rewrite elem_of_nil. naive_solver.
    - rewrite IH, elem_of_union, elem_of_singleton.
      setoid_rewrite elem_of_cons. naive_solver. }
  rewrite Hgen. setoid_rewrite list_elem_of_filter. set_solver.
Qed.

Lemma parse_token_inj t1 t2 : parse_token t1 = parse_token t2 → t1 = t2.
Proof.
  destruct t1 as [|c1 r1], t2 as [|c2 r2]; cbn [parse_token];
    repeat case_decide; intros ?; simplify_eq; done.
Qed.

(** X22. Tokens and literals: different tokens are read as different
    literals, a token is read as a negated literal exactly when it starts
    with [-], and a token read as a positive literal is the name of that
    literal. *)
Theorem parse_token_faithful (t1 t2 : string) :
  (parse_token t1 = parse_token t2 ↔ t1 = t2) ∧
  (negated (parse_token t1) = true ↔ ∃ rest, t1 = String "-"%char rest) ∧
  (negated (parse_token t1) = false → name (parse_token t1) = t1).
Proof.
  split; [split; [apply parse_token_inj|by intros ->]|]. split.
  - destruct t1 as [|c r]; cbn [parse_token].
    + split; [done|]. by intros [? ?].
    + case_decide as Hc; cbn [negated].
      * subst c. split; [eauto|done].
      * split; [done|]. intros [rest [= -> _]]. done.
  - destruct t1 as [|c r]; cbn [parse_token]; [done|]. by case_decide.
Qed.

(** X23. [parse_clause]: the literals of the clause are the literals read
    from the non-empty pieces of the line, so no piece gives the empty
    clause; the clause is tautological exactly when the line holds a
    variable both as [v] and as [-v], and [parse_clause] keeps it all the
    same. *)
Theorem parse_clause_literals (pieces : list string) :
  (∀ l, l ∈ literals (parse_clause pieces) ↔
        ∃ tok, tok ∈ pieces ∧ tok ≠ EmptyString ∧ parse_token tok = l) ∧
  parse_clause [] = mkClause ∅ ∧
  (tautological (parse_clause pieces) ↔
   ∃ v, v ∈ pieces ∧ String "-"%char v ∈ pieces ∧ v ≠ EmptyString ∧
        negated (parse_token v) = false).
Proof.
  split; [intros l; apply elem_of_parse_clause|]. split.
  - unfold parse_clause, Clause_of. rewrite filter_nil. cbn [foldl].
    by rewrite elements_empty.
  - unfold tautological. setoid_rewrite elem_of_parse_clause. split.
    + intros (v & (t1 & Ht1 & Hne1 & Hp1) & (t2 & Ht2 & Hne2 & Hp2)).
      assert (negated (parse_token t1) = false) as Hn1 by (by rewrite Hp1).
      assert (name (parse_token t1) = t1) as Hname.
      { destruct t1 as [|c r]; cbn [parse_token] in *; [done|].
        by case_decide. }
      rewrite Hp1 in Hname. cbn [name] in Hname. subst t1.
      assert (t2 = String "-"%char v) as ->.
      { destruct t2 as [|c r]; cbn [parse_token] in Hp2; [done|].
        case_decide; simplify_eq; done. }
      exists v. done.
    + intros (v & Hv & Hnv & Hne & Hpos). exists v. split.
      * exists v. repeat split; [done..|].
        destruct v as [|c r]; cbn [parse_token] in *; [done|]. by case_decide.
      * exists (String "-"%char v). split; [done|]. split; [by intros [=]|].
        cbn [parse_token]. by case_decide.
Qed.

Lemma read_clauses_elem lines acc c :
  c ∈ read_clauses lines acc →
  c ∈ acc ∨ ∃ pieces, pieces ∈ lines ∧ pieces ≠ [] ∧ c = parse_clause pieces.
Proof.
  revert acc. induction lines as [|x lines IH]; intros acc; cbn [read_clauses].
  - by left.
  - case_decide as Hx; [by left|].
    intros [[->%elem_of_singleton|?]%elem_of_union|(p & ? & ? & ?)]%IH.
    + right. exists x. split; [left|done].
    + by left.
    + right. exists p. split; [by right|done].
Qed.

Lemma read_clauses_blank before after acc :
  read_clauses (before ++ [] :: after) acc = read_clauses before acc.
Proof.
  revert acc. induction before as [|x before IH]; intros acc;
    cbn [app read_clauses].
  - by rewrite decide_True.
  - case_decide; [done|apply IH].
Qed.

(** X24. The reader: provided no piece of a line is the empty string (the
    pieces come from [split]), the formula read has neither a tautological
    clause nor the empty clause; and whatever follows the first blank line
    is not read. *)
Theorem read_formula_well_formed (lines after : list (list string)) :
  (∀ pieces tok, pieces ∈ lines → tok ∈ pieces → tok ≠ EmptyString) →
  (∀ c, c ∈ clauses (read_formula lines) →
        ¬ tautological c ∧ literals c ≠ ∅) ∧
  read_formula (lines ++ [] :: after) = read_formula lines.
Proof.
  intros Hne. split.
  - intros c [Hc Hnt]%elem_of_Formula_of. split; [done|].
    apply elem_of_elements, read_clauses_elem in Hc as [?|(p & Hp & Hnil & ->)];
      [set_solver|].
    destruct p as [|tok p]; [done|].
    assert (parse_token tok ∈ literals (parse_clause (tok :: p))) as Hin.
    { apply elem_of_parse_clause. exists tok. split; [left|]. split; [|done].
      eapply Hne; [done|left]. }
    set_solver.
  - unfold read_formula. by rewrite read_clauses_blank.
Qed.

Lemma read_formula_well_formed_witness :
  (∀ pieces tok, pieces ∈ [["A"; "-A"]; ["B"]] → tok ∈ pieces →
                 tok ≠ EmptyString) ∧
  read_formula ([["A"; "-A"]; ["B"]] ++ [] :: [["-B"]])
  = read_formula [["A"; "-A"]; ["B"]].
Proof.
  assert (H : ∀ pieces tok, pieces ∈ [["A"; "-A"]; ["B"]] → tok ∈ pieces →
                            tok ≠ EmptyString).
  { intros pieces tok Hp Ht Heq. subst tok.
    repeat (apply elem_of_cons in Hp as [->|Hp]);
      [..|by apply elem_of_nil in Hp];
      repeat (apply elem_of_cons in Ht as [Ht|Ht]; [discriminate Ht|]);
      by apply elem_of_nil in Ht. }
  split; [exact H|exact (proj2 (read_formula_well_formed _ [["-B"]] H))].
Defined.

(** X25. The exit status: with recursion depth above the number of
    variables and loop fuel above the number of clauses of the formula read,
    [main] returns 1 exactly when no assignment makes that formula true, and
    0 otherwise; for an input without clauses it returns 0. *)
Theorem main_status (depth fuel : nat) (lines : list (list string)) :
  size (Formula_variables (read_formula lines)) < depth →
  size (clauses (read_formula lines)) < fuel →
  (main depth fuel lines = Ret 1 ↔
   ∀ T : Assignment, Formula_evaluate (read_formula lines) T ≠ Some true) ∧
  (main depth fuel lines = Ret 0 ↔
   ∃ T : Assignment, Formula_evaluate (read_formula lines) T = Some true) ∧
  (clauses (read_formula lines) = ∅ → main depth fuel lines = Ret 0).
Proof.
  intros Hdepth Hfuel. unfold main, solve.
  destruct (dpll_outcome depth fuel (read_formula lines) ∅
              (disjoint_state_empty _) Hdepth Hfuel) as [r Hr].
  rewrite Hr.
  assert (Hsat : (∃ T : Assignment, Formula_evaluate (read_formula lines) T = Some true)
                 ↔ ∃ A, r = Some A).
  { split.
    - intros [T HT%Formula_evaluate_true]. destruct r as [A|]; [eauto|].
      apply dpll_complete in Hr. destruct Hr. exists T.
      split; [apply map_empty_subseteq|done].
    - intros [A ->]. apply dpll_sound in Hr as [_ Hr%Formula_evaluate_true]. eauto. }
  assert (Hres : (if decide (clauses (read_formula lines) = ∅)
                  then Ret 0 else Ret 0) = (Ret 0 : outcome nat))
    by (by case_decide).
  split; [|split].
  - destruct r as [A|]; rewrite ?Hres; [|].
    + split; [done|]. intros Hun. destruct (proj2 Hsat) as [T HT]; [eauto|].
      by destruct (Hun T).
    + split; [|done]. intros _ T HT.
      destruct (proj1 Hsat) as [A ?]; [eauto|done].
  - destruct r as [A|]; rewrite ?Hres; [|].
    + split; [|done]. intros _. apply Hsat. eauto.
    + split; [done|]. intros [A ?]%Hsat. done.
  - intros Hemp. destruct r as [A|]; rewrite ?Hres; [done|].
    apply dpll_complete in Hr. destruct Hr. exists ∅. split; [done|].
    intros c Hc. rewrite Hemp in Hc. set_solver.
Qed.

Lemma main_status_witness :
  (size (Formula_variables (read_formula [["A"]; ["-A"]])) < 2 ∧
   size (clauses (read_formula [["A"]; ["-A"]])) < 3) ∧
  (main 2 3 [["A"]; ["-A"]] = Ret 1 ↔
   ∀ T : Assignment, Formula_evaluate (read_formula [["A"]; ["-A"]]) T ≠ Some true).
Proof.
  assert (H1 : size (Formula_variables (read_formula [["A"]; ["-A"]])) < 2)
    by (vm_compute; lia).
  assert (H2 : size (clauses (read_formula [["A"]; ["-A"]])) < 3)
    by (vm_compute; lia).
  split; [by split|exact (proj1 (main_status 2 3 _ H1 H2))].
Defined.
